(** * easy-k8s: the API map (apimap.js) and its helpers (utils.js)

    A shallow embedding of the resource-to-group-version map of easy-k8s:
    the version comparator [compareAPIVersions], the fold
    [mapGroupResources] of one discovery response into the module-level
    cache [apiMaps], the lookup [getGroupInfo], the orchestration
    [buildAPIMap], and [removeTrailingSlash] / [prettifyVersion] of
    utils.js.

    JavaScript strings are modelled as [string] (sequences of 8-bit code
    units; the version grammar only involves ASCII), a value that may be
    [undefined] as [option], the objects used as dictionaries as [gmap],
    and an exception as the [Throw] outcome of a state-and-exception monad
    over the cache.  A [gmap] holds the keys an object has of its own; a
    read of a resource name also finds the members every plain object
    inherits from [Object.prototype] ([JS.inherited]).  The fold is
    modelled for cluster versions that do not name such a member: under
    one that does, the code would write into the built-in object itself,
    which is outside this model. *)

From Stdlib Require Import String Ascii ZArith.
From stdpp Require Import gmap strings list.

Local Open Scope string_scope.

(** ** JavaScript primitives used by the sources *)

Module JS.

(** [!!v] for a value that is a string or [undefined]: only the empty
    string and [undefined] are falsy. *)
Definition truthy (v : option string) : bool :=
  match v with
  | Some s => negb (String.eqb s "")
  | None => false
  end.

(** The abstract relational comparison [a < b] on values that are strings
    or [undefined].  Two strings are compared code unit by code unit (a
    proper prefix is smaller); in every other case both sides go through
    ToNumber, [undefined] becomes NaN and the answer is [false]. *)
Definition lt (a b : option string) : bool :=
  match a, b with
  | Some x, Some y => String.ltb x y
  | _, _ => false
  end.

(** [a > b] is evaluated as [b < a]. *)
Definition gt (a b : option string) : bool := lt b a.

(** [a === b] on values that are strings or [undefined]. *)
Definition strict_eq (a b : option string) : bool :=
  match a, b with
  | Some x, Some y => String.eqb x y
  | None, None => true
  | _, _ => false
  end.

(** ToString on a value that is a string or [undefined]. *)
Definition to_string (v : option string) : string :=
  match v with
  | Some s => s
  | None => "undefined"
  end.

(** [s.indexOf(sub)]: the first index of [sub] in [s], or [-1]. *)
Definition indexOf (s sub : string) : Z :=
  match String.index 0 sub s with
  | Some i => Z.of_nat i
  | None => (-1)%Z
  end.

(** [s[s.length - 1]]: the last code unit, [undefined] on the empty
    string (index [-1]). *)
Definition last_char (s : string) : option ascii :=
  match String.length s with
  | O => None
  | S n => String.get n s
  end.

(** [s.substr(start, len)]. *)
Definition substr (s : string) (start len : nat) : string :=
  String.substring start len s.

Definition char_between (lo hi c : ascii) : bool :=
  (nat_of_ascii lo <=? nat_of_ascii c)%nat && (nat_of_ascii c <=? nat_of_ascii hi)%nat.

Definition lower_char (c : ascii) : ascii :=
  if char_between "A" "Z" c then ascii_of_nat (nat_of_ascii c + 32) else c.

(** [s.toLowerCase()] on the ASCII range. *)
Fixpoint toLowerCase (s : string) : string :=
  match s with
  | EmptyString => EmptyString
  | String c t => String (lower_char c) (toLowerCase t)
  end.

(** The names of the members of [Object.prototype] (Node.js): a plain
    object has each of them without having it as a key of its own.  Read
    from a plain object, [__proto__] is [Object.prototype] itself and every
    other one is a function. *)
Definition prototype_members : list string :=
  [ "constructor"; "__defineGetter__"; "__defineSetter__"; "hasOwnProperty";
    "__lookupGetter__"; "__lookupSetter__"; "isPrototypeOf";
    "propertyIsEnumerable"; "toString"; "valueOf"; "__proto__";
    "toLocaleString" ].

Definition inherited (k : string) : bool :=
  existsb (String.eqb k) prototype_members.

End JS.

(** ** Backtracking regular expressions

    The fragment of ECMAScript patterns the sources use, with the
    continuation-passing matcher of the language specification: a matcher
    takes a state and a continuation, and a greedy quantifier first tries
    one more iteration and falls back to the continuation when that
    fails. *)

Module Regex.

Inductive regex : Type :=
| Class (p : ascii -> bool)      (* a literal, [[a-z]], [[^/]], ... *)
| Cat (r1 r2 : regex)            (* r1 r2 *)
| Plus (r : regex)               (* r+   (greedy) *)
| Opt (r : regex)                (* r?   (greedy) *)
| Group (n : nat) (r : regex)    (* (r), the n-th capturing group *)
| Bol                            (* ^ *)
| Eol.                           (* $ *)

(** The state of a match: the input not yet consumed, the index reached,
    and the captures made so far (an absent index is [undefined]). *)
Record mstate : Type := MState {
  rest : string;
  pos : nat;
  caps : gmap nat string
}.

Definition lit (c : ascii) : regex := Class (Ascii.eqb c).
Definition lower : regex := Class (JS.char_between "a" "z").
Definition digit : regex := Class (JS.char_between "0" "9").
Definition not_char (c : ascii) : regex := Class (fun a => negb (Ascii.eqb c a)).

(** The capturing groups inside a pattern: a quantifier resets them
    before each iteration. *)
Fixpoint groups (r : regex) : list nat :=
  match r with
  | Class _ | Bol | Eol => []
  | Cat r1 r2 => (groups r1 ++ groups r2)%list
  | Plus r1 | Opt r1 => groups r1
  | Group n r1 => n :: groups r1
  end.

Definition clear (gs : list nat) (x : mstate) : mstate :=
  MState (rest x) (pos x) (foldr delete (caps x) gs).

Definition capture (n : nat) (x y : mstate) : mstate :=
  MState (rest y) (pos y)
         (<[n := String.substring 0 (pos y - pos x) (rest x)]> (caps y)).

Definition first_some {A} (a : option A) (b : option A) : option A :=
  match a with
  | Some z => Some z
  | None => b
  end.

(** A matcher takes the state reached and the continuation of the
    pattern. *)
Definition matcher : Type := mstate -> (mstate -> option mstate) -> option mstate.

(** Zero or more further iterations of [m], as many as possible first.  An
    iteration that consumes nothing is rejected, so the number of
    iterations is bounded by the length of the remaining input, which is
    what [fuel] starts from. *)
Fixpoint repeat (m : matcher) (c : mstate -> option mstate) (fuel : nat)
    (y : mstate) : option mstate :=
  match fuel with
  | O => c y
  | S fuel' =>
      first_some
        (m y (fun z => if (pos z =? pos y)%nat then None else repeat m c fuel' z))
        (c y)
  end.

Fixpoint run (r : regex) (x : mstate) (c : mstate -> option mstate)
  : option mstate :=
  match r with
  | Class p =>
      match rest x with
      | String a t => if p a then c (MState t (S (pos x)) (caps x)) else None
      | EmptyString => None
      end
  | Cat r1 r2 => run r1 x (fun y => run r2 y c)
  | Opt r1 =>
      first_some
        (run r1 (clear (groups r1) x)
             (fun y => if (pos y =? pos x)%nat then None else c y))
        (c x)
  | Plus r1 =>
      (* one mandatory iteration, then as many as possible *)
      let m : matcher := fun y k => run r1 (clear (groups r1) y) k in
      m x (repeat m c (String.length (rest x)))
  | Group n r1 => run r1 x (fun y => c (capture n x y))
  | Bol => if (pos x =? 0)%nat then c x else None
  | Eol => match rest x with EmptyString => c x | String _ _ => None end
  end.

(** [re.exec(s)] for a pattern without flags: the leftmost start index
    at which the pattern matches; [None] is the result [null].  The
    result array is the capture map, index [0] holding the whole
    match. *)
Fixpoint exec_from (r : regex) (s : string) (i : nat)
  : option (gmap nat string) :=
  match run r (MState s i ∅) Some with
  | Some y => Some (<[0%nat := String.substring 0 (pos y - i) s]> (caps y))
  | None =>
      match s with
      | EmptyString => None
      | String _ t => exec_from r t (S i)
      end
  end.

Definition exec (r : regex) (s : string) : option (gmap nat string) :=
  exec_from r s 0.

End Regex.

(** ** Exceptions *)

Inductive js_error : Type :=
| TypeError
    (* a property read on [null] or [undefined] *)
| AxiosError (response : option (Z * string))
    (* a rejected [axios.get]: the status and status text of the response
       when the server answered, no response otherwise *)
| StatusError (statusCode : Z) (cause : js_error)
    (* the Error built by [axiosHandler]: a status code, message and metadata
       taken from [cause] *)
| InvalidArgument (status : Z) (message : string).
    (* [new Error(message)] with [err.status] set *)

Inductive outcome (A : Type) : Type :=
| Return (a : A)
| Throw (e : js_error).
Arguments Return {A} a.
Arguments Throw {A} e.

Definition obind {A B} (o : outcome A) (f : A -> outcome B) : outcome B :=
  match o with
  | Return a => f a
  | Throw e => Throw e
  end.

(** [m[i]] on the result of [exec]: reading an index of [null] throws, an
    unset group reads as [undefined]. *)
Definition exec_index (m : option (gmap nat string)) (i : nat)
  : outcome (option string) :=
  match m with
  | Some caps => Return (caps !! i)
  | None => Throw TypeError
  end.

(** ** utils.js *)

Module Utils.

(** [axiosHandler(axiosErr)] *)
Definition axiosHandler (axiosErr : js_error) : js_error :=
  match axiosErr with
  | AxiosError (Some (status, statusText)) => StatusError status axiosErr
  | _ => StatusError 500 axiosErr
  end.

(** [removeTrailingSlash(url)]: the [if] evaluates [url.substr(...)] as an
    expression statement and drops its value. *)
Definition removeTrailingSlash (url : string) : string :=
  let dropped :=
    if JS.last_char url is Some "/"%char
    then Some (JS.substr url 0 (String.length url - 1))
    else None in
  url.

(** [s.split(sep)] for a one-character separator. *)
Fixpoint split (sep : ascii) (s : string) : list string :=
  match s with
  | EmptyString => [EmptyString]
  | String c t =>
      if Ascii.eqb c sep then EmptyString :: split sep t
      else match split sep t with
           | h :: r => String c h :: r
           | [] => [String c EmptyString]
           end
  end.

(** The loop of [prettifyVersion]: [versionArr] holds the elements from
    index [i] on. *)
Fixpoint prettify_loop (i precision : nat) (versionArr : list string)
    (pretty : string) : string :=
  match versionArr with
  | [] => pretty
  | x :: versionArr' =>
      if (i <? precision)%nat
      then prettify_loop (S i) precision versionArr'
             (pretty ++ (if (0 <? i)%nat then "." else "") ++ x)
      else pretty
  end.

(** [prettifyVersion(verStr, precision)] *)
Definition prettifyVersion (verStr : string) (precision : nat) : string :=
  let precision := if (precision =? 0)%nat then 3%nat else precision in
  let versionArr := split "." verStr in
  let versionArr :=
    match versionArr with
    | String "v" t :: r => JS.substr (String "v" t) 1 (String.length t) :: r
    | _ => versionArr
    end in
  prettify_loop 0 precision versionArr "".

End Utils.

(** ** apimap.js *)

Module APIMap.
Import Regex.

Declare Scope regex_scope.
Delimit Scope regex_scope with re.
Infix "·" := Cat (at level 40, left associativity) : regex_scope.

(** [/^([^/]+\/)?(v[0-9]+([a-z]+[0-9]+)?)$/] *)
Definition extractVerRegex : regex :=
  (Bol
   · Opt (Group 1 (Plus (not_char "/") · lit "/"))
   · Group 2 (lit "v" · Plus digit · Opt (Group 3 (Plus lower · Plus digit)))
   · Eol)%re.

(** [/([a-z]+)([0-9]+)([a-z]+)?([0-9]+)?/] *)
Definition verRegex : regex :=
  (Group 1 (Plus lower)
   · Group 2 (Plus digit)
   · Opt (Group 3 (Plus lower))
   · Opt (Group 4 (Plus digit)))%re.

(** [compareAPIVersions(ver1, ver2)]: the captures are strings (or
    [undefined]) and are compared as such. *)
Definition compareAPIVersions (ver1 ver2 : string) : outcome Z :=
  let ver1Extraction := exec verRegex ver1 in
  let ver2Extraction := exec verRegex ver2 in
  obind (exec_index ver1Extraction 2) (fun ver1Major =>
  obind (exec_index ver1Extraction 3) (fun ver1MinorStr =>
  obind (exec_index ver1Extraction 4) (fun ver1Minor =>
  obind (exec_index ver2Extraction 2) (fun ver2Major =>
  obind (exec_index ver2Extraction 3) (fun ver2MinorStr =>
  obind (exec_index ver2Extraction 4) (fun ver2Minor =>
  Return
    (if JS.gt ver1Major ver2Major then 1
     else if JS.lt ver1Major ver2Major then -1
     else if JS.strict_eq ver1MinorStr (Some "beta")
             && JS.strict_eq ver2MinorStr (Some "alpha") then 1
     else if JS.strict_eq ver1MinorStr (Some "alpha")
             && JS.strict_eq ver2MinorStr (Some "beta") then -1
     else if JS.gt ver1Minor ver2Minor then 1
     else if JS.lt ver1Minor ver2Minor then -1
     else 0)%Z)))))).


(** *** The cache and the fold *)

(** An entry of the map: [{version, namespaced}]. *)
Record ResourceMapping : Type := {
  version : string;
  namespaced : bool
}.

(** One element of [resources] in a discovery document. *)
Record Resource : Type := {
  name : string;
  resource_namespaced : bool
}.

(** The body of a [/api/v1] or [/apis/<group>/<version>] response. *)
Record ResourcesResp : Type := {
  groupVersion : string;
  resources : list Resource
}.

(** The module-level [apiMaps]: cluster version -> resource name -> entry. *)
Abbreviation ApiMaps := (gmap string (gmap string ResourceMapping)).

(** Code that reads and writes [apiMaps] and may throw.  The cache is
    returned in both cases: what was written before an exception stays
    written. *)
Definition cmd (A : Type) : Type := ApiMaps -> ApiMaps * outcome A.

Definition ret {A} (a : A) : cmd A := fun apiMaps => (apiMaps, Return a).

Definition bind {A B} (m : cmd A) (f : A -> cmd B) : cmd B :=
  fun apiMaps =>
    match m apiMaps with
    | (apiMaps', Return a) => f a apiMaps'
    | (apiMaps', Throw e) => (apiMaps', Throw e)
    end.

Definition lift {A} (o : outcome A) : cmd A := fun apiMaps => (apiMaps, o).

Notation "x <- m ;; k" := (bind m (fun x => k))
  (at level 100, m at next level, right associativity).
Notation "m ;;; k" := (bind m (fun _ => k))
  (at level 100, right associativity).

(** [for (const x of xs) body(x)]; an exception leaves the loop. *)
Fixpoint for_of {A} (xs : list A) (body : A -> cmd unit) : cmd unit :=
  match xs with
  | [] => ret tt
  | x :: xs' => body x ;;; for_of xs' body
  end.

(** The entry [apiMaps[clusterVer][name]] holds as a key of its own;
    [None] when either key is unset. *)
Definition entry (apiMaps : ApiMaps) (clusterVer name : string)
  : option ResourceMapping :=
  apiMaps !! clusterVer ≫= (fun m => m !! name).

Definition read_entry (clusterVer name : string) : cmd (option ResourceMapping) :=
  fun apiMaps => (apiMaps, Return (entry apiMaps clusterVer name)).

(** [apiMaps[clusterVer][name] = e] *)
Definition write_entry (clusterVer name : string) (e : ResourceMapping) : cmd unit :=
  fun apiMaps =>
    (<[clusterVer := <[name := e]> (default ∅ (apiMaps !! clusterVer))]> apiMaps,
     Return tt).

(** [if (!apiMaps[clusterVer]) apiMaps[clusterVer] = {}] *)
Definition ensure_cluster (clusterVer : string) : cmd unit :=
  fun apiMaps =>
    match apiMaps !! clusterVer with
    | Some _ => (apiMaps, Return tt)
    | None => (<[clusterVer := ∅]> apiMaps, Return tt)
    end.

(** The body of the loop of [mapGroupResources] for one [resource].  When
    [name] is not a key of the map but names a member of
    [Object.prototype], [apiMaps[clusterVer][name]] is that member. *)
Definition mapResource (clusterVer groupVer : string) (ver : option string)
    (preferredGroupVer : option string) (resource : Resource) : cmd unit :=
  let name := name resource in
  (* Only process the original resource, no sub-routes *)
  if negb (JS.indexOf name "/" =? -1)%Z then ret tt
  else
    (* Get the current mapped group version *)
    curr <- read_entry clusterVer name ;;
    currVers <- lift
      match curr with
      | Some e =>
          obind (exec_index (exec extractVerRegex (version e)) 2)
                (fun currVer => Return (Some (version e), currVer))
      | None =>
          if JS.inherited name
          then
            (* the read finds a member of [Object.prototype]: it is truthy
               and its [version] is [undefined] *)
            obind (exec_index (exec extractVerRegex (JS.to_string None)) 2)
                  (fun currVer => Return (None, currVer))
          else Return (None, None)
      end ;;
    let '(currGroupVer, currVer) := currVers in
    (* If the current mapped matches the preferred version, just keep that *)
    if JS.truthy currGroupVer && JS.truthy preferredGroupVer
       && JS.strict_eq currGroupVer preferredGroupVer
    then ret tt
    else
      replace <- lift
        (if negb (JS.truthy currGroupVer) then Return true
         else if JS.truthy currGroupVer
         then obind (compareAPIVersions (JS.to_string currVer) (JS.to_string ver))
                    (fun c => Return (c <? 0)%Z)
         else Return false) ;;
      if (replace : bool)
      then write_entry clusterVer name
             {| version := groupVer; namespaced := resource_namespaced resource |}
      else ret tt.

(** [mapGroupResources(clusterVer, resourcesResp, preferredGroupVer)];
    the core group is folded with [preferredGroupVer] left [undefined]. *)
Definition mapGroupResources (clusterVer : string) (resourcesResp : ResourcesResp)
    (preferredGroupVer : option string) : cmd (option (gmap string ResourceMapping)) :=
  let groupVer := groupVersion resourcesResp in
  ver <- lift (exec_index (exec extractVerRegex groupVer) 2) ;;
  ensure_cluster clusterVer ;;;
  for_of (resources resourcesResp)
         (mapResource clusterVer groupVer ver preferredGroupVer) ;;;
  fun apiMaps => (apiMaps, Return (apiMaps !! clusterVer)).

(** *** The lookup *)

(** What [getGroupInfo] returns when it is not [undefined]: one entry, the
    whole map of the cluster version, or what a read found in
    [Object.prototype]. *)
Inductive GroupInfo : Type :=
| Entry (e : ResourceMapping)
| WholeMap (m : gmap string ResourceMapping)
| ObjectPrototype                (* [Object.prototype] itself *)
| Builtin (k : string).          (* the function [Object.prototype[k]] *)

(** [m[k]] when [k] is not a key of the plain object [m]; [None] is
    [undefined]. *)
Definition inherited_member (k : string) : option GroupInfo :=
  if String.eqb k "__proto__" then Some ObjectPrototype
  else if JS.inherited k then Some (Builtin k)
  else None.

(** [Object.prototype[k]]; [None] is a falsy value ([undefined], or the
    [null] that [Object.prototype.__proto__] is). *)
Definition prototype_member (k : string) : option GroupInfo :=
  if String.eqb k "__proto__" then None
  else if JS.inherited k then Some (Builtin k)
  else None.

(** [getGroupInfo(clusterVersion, resourceType)] on string arguments;
    [None] is [undefined].  [Object.prototype] is as the engine makes
    it. *)
Definition getGroupInfo (apiMaps : ApiMaps) (clusterVersion resourceType : string)
  : option GroupInfo :=
  if negb (JS.truthy (Some clusterVersion)) then None
  else if negb (JS.truthy (Some resourceType)) then None
  else
    let resourceType := JS.toLowerCase resourceType in
    let read (m : gmap string ResourceMapping) (k : string) : option GroupInfo :=
      match m !! k with
      | Some e => Some (Entry e)
      | None => inherited_member k
      end in
    match apiMaps !! clusterVersion with
    | Some m =>
        match read m resourceType with
        | Some apiGroupInfo => Some apiGroupInfo
        | None =>
            (* Try making the string plural *)
            match read m (resourceType ++ "s") with
            | Some apiGroupInfo => Some apiGroupInfo
            | None =>
                (* Give up and send the whole thing *)
                Some (WholeMap m)
            end
        end
    | None =>
        (* [apiMaps] is a plain object: [apiMaps.__proto__] is the object
           [Object.prototype]; its other inherited members are functions,
           which fail the [typeof] test *)
        if String.eqb clusterVersion "__proto__" then
          match prototype_member resourceType with
          | Some apiGroupInfo => Some apiGroupInfo
          | None =>
              match prototype_member (resourceType ++ "s") with
              | Some apiGroupInfo => Some apiGroupInfo
              | None => Some ObjectPrototype
              end
          end
        else None
    end.

(** *** The orchestration *)

(** One element of [groups] in the [/apis] document:
    [preferredVersion.groupVersion] and the [groupVersion] of each element
    of [versions]. *)
Record APIGroup : Type := {
  preferredVersion : string;
  versions : list string
}.

(** The cluster as [axios.get] sees it, one field per kind of document. *)
Record Cluster : Type := {
  get_version : string -> outcome string;           (* [data.gitVersion] *)
  get_resources : string -> outcome ResourcesResp;  (* [data] *)
  get_groups : string -> outcome (list APIGroup)    (* [data.groups] *)
}.

(** A kubeconfig whose current context resolves to a cluster with this
    server URL (the certificate plays no role here). *)
Record Kubeconfig : Type := {
  server : string
}.

(** How the promise of [buildAPIMap] settles: [throw errs] rejects with
    the array itself. *)
Inductive rejection : Type :=
| OneError (e : js_error)
| ErrorList (errs : list js_error).

Inductive settled (A : Type) : Type :=
| Fulfilled (value : A)
| Rejected (reason : rejection).
Arguments Fulfilled {A} value.
Arguments Rejected {A} reason.

(** [Client.getVersion(kubeconfig)] *)
Definition getVersion (net : Cluster) (kubeconfig : Kubeconfig) : outcome string :=
  let ip := server kubeconfig in
  let url := ip ++ (if JS.last_char ip is Some "/"%char then "" else "/") ++ "version" in
  match get_version net url with
  | Return v => Return v
  | Throw err => Throw (Utils.axiosHandler err)
  end.

(** [axios.get(url).then(resp => mapGroupResources(clusterVer, resp.data,
    preferredGroupVer)).catch(err => errs.push(axiosHandler(err)))],
    threading the cache and [errs]. *)
Definition groupReq (net : Cluster) (url clusterVer : string)
    (preferredGroupVer : option string) (st : ApiMaps * list js_error)
  : ApiMaps * list js_error :=
  let '(apiMaps, errs) := st in
  match get_resources net url with
  | Throw err => (apiMaps, (errs ++ [Utils.axiosHandler err])%list)
  | Return data =>
      match mapGroupResources clusterVer data preferredGroupVer apiMaps with
      | (apiMaps', Return _) => (apiMaps', errs)
      | (apiMaps', Throw err) => (apiMaps', (errs ++ [Utils.axiosHandler err])%list)
      end
  end.

(** The requests of one group, one per version. *)
Definition groupReqs (net : Cluster) (serverBaseURL clusterVer : string)
    (group : APIGroup) (st : ApiMaps * list js_error) : ApiMaps * list js_error :=
  foldl (fun st groupVersion =>
           groupReq net (serverBaseURL ++ "/apis/" ++ groupVersion) clusterVer
                    (Some (preferredVersion group)) st)
        st (versions group).

(** [buildAPIMap(kubeconfig)]: the cache once every request has settled,
    and how the returned promise settles.  The callbacks of the requests
    are run in the order in which the requests are issued. *)
Definition buildAPIMap (net : Cluster) (kubeconfig : option Kubeconfig)
    (apiMaps : ApiMaps)
  : ApiMaps * settled (option (gmap string ResourceMapping)) :=
  match kubeconfig with
  | None =>
      (apiMaps, Rejected (OneError (InvalidArgument 400 "Invalid 'kubeconfig' object given")))
  | Some kubeconfig =>
      match getVersion net kubeconfig with
      | Throw err => (apiMaps, Rejected (OneError (Utils.axiosHandler err)))
      | Return gitVersion =>
          let clusterVer := Utils.prettifyVersion gitVersion 2 in
          let serverBaseURL := Utils.removeTrailingSlash (server kubeconfig) in
          (* Add the 'core' API group *)
          let st := groupReq net (serverBaseURL ++ "/api/v1") clusterVer None (apiMaps, []) in
          (* Add all other API groups *)
          match get_groups net (serverBaseURL ++ "/apis") with
          | Throw err => (st.1, Rejected (OneError (Utils.axiosHandler err)))
          | Return apiGroups =>
              let '(apiMaps', errs) :=
                foldl (fun st group => groupReqs net serverBaseURL clusterVer group st)
                      st apiGroups in
              if (0 <? List.length errs)%nat
              then (apiMaps', Rejected (ErrorList errs))
              else (apiMaps', Fulfilled (apiMaps' !! clusterVer))
          end
      end
  end.

End APIMap.

(** * Definitions used by the statements and the proofs *)

(** ** Runs of one character class

    Every [+] of the two patterns of apimap.js ranges over a single
    character class.  On such a pattern the greedy loop takes the longest
    run first and gives characters back one at a time. *)

Module Runs.
Import Regex.

(** Every character of [s] is in the class [p]. *)
Fixpoint all_chars (p : ascii -> bool) (s : string) : bool :=
  match s with
  | EmptyString => true
  | String a t => p a && all_chars p t
  end.

(** A non-empty run of characters of the class [p]. *)
Definition run_of (p : ascii -> bool) (s : string) : bool :=
  negb (String.eqb s "") && all_chars p s.

(** [s] does not start with a character of the class [p]. *)
Definition stops (p : ascii -> bool) (s : string) : Prop :=
  match s with
  | EmptyString => True
  | String a _ => p a = false
  end.

(** [[p]*] followed by [c], as a recursion on the input. *)
Fixpoint greedy (p : ascii -> bool) (c : mstate -> option mstate)
    (s : string) (i : nat) (cs : gmap nat string) : option mstate :=
  match s with
  | String a t =>
      if p a then first_some (greedy p c t (S i) cs) (c (MState s i cs))
      else c (MState s i cs)
  | EmptyString => c (MState s i cs)
  end.

End Runs.

(** ** Version tokens *)

Module Token.
Import Runs.

Definition is_lower : ascii -> bool := JS.char_between "a" "z".
Definition is_digit : ascii -> bool := JS.char_between "0" "9".

(** A version token as the grammar
    [<letterRun><majorDigits>[<letterRun2><minorDigits>]] reads it: [v1] is
    [letters = "v"], [major = "1"], no minor part; [v1beta2] has the
    minor part [("beta", "2")]. *)
Record VersionToken : Type := {
  letters : string;
  major : string;
  minor : option (string * string)
}.

Definition label (t : VersionToken) : option string := fst <$> minor t.
Definition numeral (t : VersionToken) : option string := snd <$> minor t.

Definition well_formed (t : VersionToken) : bool :=
  run_of is_lower (letters t) && run_of is_digit (major t)
  && match minor t with
     | Some (l, n) => run_of is_lower l && run_of is_digit n
     | None => true
     end.

(** The token as a string. *)
Definition render (t : VersionToken) : string :=
  letters t ++ major t
  ++ match minor t with
     | Some (l, n) => l ++ n
     | None => ""
     end.

(** A numeral read as a decimal integer. *)
Definition digit_value (c : ascii) : nat := nat_of_ascii c - 48.

Fixpoint numeral_value (s : string) : nat :=
  match s with
  | EmptyString => 0
  | String c t => digit_value c * 10 ^ String.length t + numeral_value t
  end.

Definition v1beta1 : VersionToken :=
  {| letters := "v"; major := "1"; minor := Some ("beta", "1") |}.
Definition v1alpha2 : VersionToken :=
  {| letters := "v"; major := "1"; minor := Some ("alpha", "2") |}.

End Token.

(** ** One iteration of the fold *)

Module Step.
Import APIMap.

(** What the loop body does with the entry it finds under the resource's
    name: leave it, throw, or write [{version: groupVer, ...}].  Without an
    entry, a name inherited from [Object.prototype] throws. *)
Inductive action : Type :=
| Keep
| Raise (e : js_error)
| Put.

Definition decide_action (ver preferredGroupVer : option string)
    (name : string) (curr : option ResourceMapping) : action :=
  match curr with
  | None => if JS.inherited name then Raise TypeError else Put
  | Some e =>
      match exec_index (Regex.exec extractVerRegex (version e)) 2 with
      | Throw err => Raise err
      | Return currVer =>
          if JS.truthy (Some (version e)) && JS.truthy preferredGroupVer
             && JS.strict_eq (Some (version e)) preferredGroupVer
          then Keep
          else if negb (JS.truthy (Some (version e))) then Put
          else match compareAPIVersions (JS.to_string currVer) (JS.to_string ver) with
               | Throw err => Raise err
               | Return c => if (c <? 0)%Z then Put else Keep
               end
      end
  end.

(** The name contains a [/]. *)
Definition sub_resource (name : string) : bool :=
  negb (JS.indexOf name "/" =? -1)%Z.

Definition put (clusterVer groupVer : string) (resource : Resource)
    (apiMaps : ApiMaps) : ApiMaps :=
  (write_entry clusterVer (name resource)
     {| version := groupVer; namespaced := resource_namespaced resource |}
     apiMaps).1.

(** The response without its sub-resource descriptors. *)
Definition without_sub_resources (resourcesResp : ResourcesResp) : ResourcesResp :=
  {| groupVersion := groupVersion resourcesResp;
     resources := filter (fun r => sub_resource (name r) = false)
                         (resources resourcesResp) |}.

(** Running the loop body for [r] leaves the cache as it is. *)
Definition quiet (clusterVer groupVer : string) (ver preferredGroupVer : option string)
    (apiMaps : ApiMaps) (r : Resource) : Prop :=
  (mapResource clusterVer groupVer ver preferredGroupVer r apiMaps).1 = apiMaps.

End Step.

(** ** Concrete responses *)

Module Examples.
Import APIMap.

Definition pods : Resource := {| name := "pods"; resource_namespaced := true |}.
Definition deployments : Resource :=
  {| name := "deployments"; resource_namespaced := true |}.

Definition core_v1 : ResourcesResp :=
  {| groupVersion := "v1"; resources := [pods] |}.
Definition apps_v1beta1 : ResourcesResp :=
  {| groupVersion := "apps/v1beta1"; resources := [deployments] |}.
Definition apps_v1 : ResourcesResp :=
  {| groupVersion := "apps/v1"; resources := [deployments] |}.
Definition extensions_v2beta1 : ResourcesResp :=
  {| groupVersion := "extensions/v2beta1"; resources := [deployments] |}.

(** The cache after the three folds of the preferred-version scenario. *)
Definition scenario_cache : ApiMaps :=
  let a1 := (mapGroupResources "1.8" core_v1 None ∅).1 in
  let a2 := (mapGroupResources "1.8" apps_v1beta1 (Some "apps/v1") a1).1 in
  (mapGroupResources "1.8" apps_v1 (Some "apps/v1") a2).1.

(** A cluster that answers every request but [/apis/apps/v1beta1], which
    is requested before [/apis/apps/v1]. *)
Definition demo_kubeconfig : Kubeconfig := {| server := "https://k8s.example:6443" |}.

Definition unavailable : js_error := AxiosError (Some (503%Z, "Service Unavailable")).

Definition demo_cluster : Cluster :=
  {| get_version := fun url =>
       if String.eqb url "https://k8s.example:6443/version" then Return "v1.8.3"
       else Throw (AxiosError None);
     get_resources := fun url =>
       if String.eqb url "https://k8s.example:6443/api/v1" then Return core_v1
       else if String.eqb url "https://k8s.example:6443/apis/apps/v1" then Return apps_v1
       else Throw unavailable;
     get_groups := fun url =>
       if String.eqb url "https://k8s.example:6443/apis"
       then Return [ {| preferredVersion := "apps/v1";
                        versions := ["apps/v1"; "apps/v1beta1"] |} ]
       else Throw (AxiosError None) |}.

(** The cache and the settled promise of [buildAPIMap] on that cluster,
    from an empty cache. *)
Definition demo_build : ApiMaps * settled (option (gmap string ResourceMapping)) :=
  buildAPIMap demo_cluster (Some demo_kubeconfig) ∅.

(** The cache after folding [apps/v1], the preferred version of [apps]. *)
Definition apps_cache : ApiMaps :=
  (mapGroupResources "1.8" apps_v1 (Some "apps/v1") ∅).1.

(** The cache after folding [apps/v1beta1] as the preferred version of
    [apps], and a response of a later beta version. *)
Definition beta_cache : ApiMaps :=
  (mapGroupResources "1.8" apps_v1beta1 (Some "apps/v1beta1") ∅).1.

Definition apps_v1beta2 : ResourcesResp :=
  {| groupVersion := "apps/v1beta2"; resources := [deployments] |}.

(** The cache after folding the core group only. *)
Definition core_cache : ApiMaps :=
  (mapGroupResources "1.8" core_v1 None ∅).1.

Definition core_map : gmap string ResourceMapping :=
  {[ "pods" := {| version := "v1"; namespaced := true |} ]}.

Definition pods_and_log : ResourcesResp :=
  {| groupVersion := "v1";
     resources := [ {| name := "pods"; resource_namespaced := true |};
                    {| name := "pods/log"; resource_namespaced := true |} ] |}.

End Examples.

(** * client.js, and the definitions of further statements *)

(** ** The grammar of a group-version

    [extractVerRegex] read as a grammar: an optional group, which is a
    non-empty run without [/] followed by [/], and a version token whose
    letters are [v]. *)

Module Grammar.
Import Regex APIMap Runs Token.

Definition not_slash (a : ascii) : bool := negb (Ascii.eqb "/" a).

Definition version_token (t : VersionToken) : bool :=
  well_formed t && String.eqb (letters t) "v".

(** The three groups of [extractVerRegex]. *)
Definition G3 : regex := Group 3 (Cat (Plus lower) (Plus digit)).
Definition G2 : regex := Group 2 (Cat (Cat (lit "v") (Plus digit)) (Opt G3)).
Definition G1 : regex := Group 1 (Cat (Plus (not_char "/")) (lit "/")).

(** A group-version [s] and its version part [v]. *)
Definition group_version_of (s v : string) : Prop :=
  (exists t, version_token t = true /\ v = render t)
  /\ (s = v \/ exists g, run_of not_slash g = true /\ s = g ++ "/" ++ v).

Definition parses (groupVer : string) : Prop :=
  is_Some (exec extractVerRegex groupVer).

End Grammar.

(** ** The cache *)

Module Cache.
Import APIMap Step Grammar.

Definition cache_ok (apiMaps : ApiMaps) : Prop :=
  forall clusterVer k e, entry apiMaps clusterVer k = Some e -> parses (version e).


(** What a fold does to one entry: nothing, or it writes the
    group-version of the response with the flag of a descriptor of that
    name. *)
Definition written_by (resourcesResp : ResourcesResp) (k : string)
    (e : ResourceMapping) : Prop :=
  exists r, r ∈ resources resourcesResp /\ name r = k /\ sub_resource k = false
            /\ e = {| version := groupVersion resourcesResp;
                      namespaced := resource_namespaced r |}.

(** When no error has been recorded, the request of [url] was answered and
    every resource of the answer has an entry. *)
Definition answered (net : Cluster) (clusterVer url : string)
    (st : ApiMaps * list js_error) : Prop :=
  st.2 = [] ->
  exists data, get_resources net url = Return data
               /\ is_Some (st.1 !! clusterVer)
               /\ forall r, r ∈ resources data -> sub_resource (name r) = false ->
                            is_Some (entry st.1 clusterVer (name r)).

End Cache.

(** ** Dotted versions *)

Module Version.
Import Runs.

Definition not_dot (a : ascii) : bool := negb (Ascii.eqb a ".").

(** [xs.map(x => "." + x).join("")] *)
Fixpoint dotted (xs : list string) : string :=
  match xs with
  | [] => ""
  | x :: xs' => "." ++ x ++ dotted xs'
  end.

Definition starts_with_v (s : string) : bool :=
  match s with
  | String "v" _ => true
  | _ => false
  end.

(** [versionArr] after [if (versionArr[0][0] === 'v') ...]. *)
Definition strip_v (versionArr : list string) : list string :=
  match versionArr with
  | String "v" t :: r => t :: r
  | _ => versionArr
  end.

End Version.

(** ** client.js *)

Module Client.
Import Regex APIMap Runs Token.

(** *** The kubeconfig document *)

(** [{cluster, user}], the [context] member of an element of [contexts]. *)
Record ContextRef : Type := {
  context_cluster : string;
  context_user : string
}.

(** An element of [contexts]: [{name, context}]. *)
Record NamedContext : Type := {
  context_name : string;
  context : ContextRef
}.

(** An element of [clusters]: [{name, cluster: {server, ...}}]. *)
Record NamedCluster : Type := {
  cluster_name : string;
  cluster_server : string
}.

(** An element of [users]: [{name, user: {...}}]. *)
Record NamedUser : Type := {
  user_name : string
}.

(** The kubeconfig object.  A member that is not a non-empty array is the
    empty list: the loops over it do not run. *)
Record KubeconfigFile : Type := {
  current_context : option string;
  contexts : list NamedContext;
  clusters : list NamedCluster;
  users : list NamedUser
}.

(** [{cluster, context, user}] *)
Record CurrentContext : Type := {
  cluster : NamedCluster;
  current : NamedContext;
  user : NamedUser
}.

(** [for (const c of cs) { if (c.name === wanted) { found = c; break; } }] *)
Fixpoint first_named {A} (name_of : A -> string) (wanted : string) (cs : list A)
  : option A :=
  match cs with
  | [] => None
  | c :: cs' =>
      if String.eqb (name_of c) wanted then Some c
      else first_named name_of wanted cs'
  end.

(** [extractCurrentContext(kubeconfigFile)]; [None] is [undefined], and a
    [kubeconfigFile] that is not an object is [None]. *)
Definition extractCurrentContext (kubeconfigFile : option KubeconfigFile)
  : option CurrentContext :=
  match kubeconfigFile with
  | None => None
  | Some kubeconfigFile =>
      let currentContextName := current_context kubeconfigFile in
      if negb (JS.truthy currentContextName) then None
      else
        match first_named context_name (JS.to_string currentContextName)
                          (contexts kubeconfigFile) with
        | None => None
        | Some context_ =>
            let clusterName := context_cluster (context context_) in
            match first_named cluster_name clusterName (clusters kubeconfigFile) with
            | None => None
            | Some cluster_ =>
                let userName := context_user (context context_) in
                match first_named user_name userName (users kubeconfigFile) with
                | None => None
                | Some user_ =>
                    Some {| cluster := cluster_; current := context_; user := user_ |}
                end
            end
        end
  end.

(** *** The client of the kubernetes-client library *)

(** The pattern of the handler of a failed [loadSpec]: a colon and any
    number of spaces in group 1, then [([0-9]{3}$)] as group 2.  The
    starred class of spaces is written as an optional [[ ]+]. *)
Definition rx : regex :=
  (Group 1 (lit ":" · Opt (Plus (lit " ")))
   · Group 2 (digit · digit · digit · Eol))%re.

(** [parseInt(v)] on an unsigned decimal numeral; [None] is [NaN], the
    answer on [undefined]. *)
Definition parseInt (v : option string) : option Z :=
  match v with
  | Some d => if run_of is_digit d then Some (Z.of_nat (numeral_value d)) else None
  | None => None
  end.

(** The [statusCode] the handler attaches to the error of [loadSpec]. *)
Definition statusCode (errMsg : string) : option Z :=
  match exec rx errMsg with
  | Some rxResults => parseInt (rxResults !! 2%nat)
  | None => Some 500%Z
  end.

(** What [getKubernetesClient] resolves to: a path into the client object
    of the library, or [null]. *)
Inductive endpoint : Type :=
| WholeClient                    (* [client] *)
| Api (v : string)               (* [client.api[v]] *)
| Apis (g v : string)            (* [client.apis[g][v]] *)
| Null.

(** The errors [buildChain] and [getKubernetesClient] reject with. *)
Inductive failure : Type :=
| Rejection (r : rejection)
    (* the reason of a rejected [getVersion] or [buildAPIMap], or a
       [TypeError] *)
| NoGroupInfo (statusCode : Z) (message : string)
    (* [new Error(message)] with [err.statusCode] set *)
| LoadSpecError (message : string) (statusCode : option Z)
    (* the error of [loadSpec], with the status code attached *)
| LibraryError (message : string).
    (* an error thrown by the code of the library *)

(** [getKubernetesClient(kubeconfig, apiVersion)]: the path into the
    client that it selects.  [loadSpec] is how [client.loadSpec()] settles:
    [None] when it resolves, the message of the error otherwise.  An
    [apiVersion] that is not a string is [None].  What the selected path
    evaluates to is the library's ([Library] below). *)
Definition getKubernetesClient (loadSpec : option string) (apiVersion : option string)
  : failure + endpoint :=
  match loadSpec with
  | Some errMsg => inl (LoadSpecError errMsg (statusCode errMsg))
  | None =>
      if JS.truthy apiVersion then
        match Utils.split "/" (JS.to_string apiVersion) with
        | [v] => inr (Api v)
        | [g; v] => inr (Apis g v)
        | _ => inr Null
        end
      else inr WholeClient
  end.

(** [changeDefaultNamespace(newDefault)], on the module-level
    [defaultNamespace]. *)
Definition changeDefaultNamespace (newDefault : option string) (defaultNamespace : string)
  : string :=
  if JS.truthy newDefault then JS.to_string newDefault else defaultNamespace.

(** [getVersion(kubeconfig)] with its argument check. *)
Definition getVersion (net : Cluster) (kubeconfig : option Kubeconfig) : outcome string :=
  match kubeconfig with
  | None => Throw (InvalidArgument 400 "'kubeconfig' parameter must be an object")
  | Some kubeconfig => APIMap.getVersion net kubeconfig
  end.

(** The request chain: the accesses made on the client, innermost
    first. *)
Inductive chain : Type :=
| Root (client : endpoint)
| Namespaces (c : chain) (namespace : string)   (* [c.namespaces(namespace)] *)
| Member (c : chain) (key : string)             (* [c[key]] *)
| Call (c : chain) (arg : string).              (* [c(arg)] *)

(** What a path into the client evaluates to. *)
Inductive evaluated : Type :=
| Undefined                   (* [undefined] or [null] *)
| NotCallable                 (* an object that is not a function *)
| Callable                    (* a function *)
| Raises (message : string).  (* evaluating the path throws an error of
                                 the library *)

(** The client object the library builds from the kubeconfig: how
    [client.loadSpec()] settles (a request to the cluster: [None] when it
    resolves, the message of the error otherwise), and what each path into
    the client evaluates to. *)
Record Library : Type := {
  loadSpec : option string;
  value_of : chain -> evaluated
}.

(** The client itself is an object and [null] is [null]; the rest is the
    library's. *)
Definition value (library : Library) (c : chain) : evaluated :=
  match c with
  | Root WholeClient => NotCallable
  | Root Null => Undefined
  | _ => value_of library c
  end.

(** [c[key]]: reading a member of [undefined] or [null] throws. *)
Definition member (library : Library) (c : chain) (key : string) : failure + chain :=
  match value library c with
  | Undefined => inl (Rejection (OneError TypeError))
  | _ =>
      match value library (Member c key) with
      | Raises message => inl (LibraryError message)
      | _ => inr (Member c key)
      end
  end.

(** [c(arg)]: calling what is not a function throws. *)
Definition call (library : Library) (c : chain) (arg : string) : failure + chain :=
  match value library c with
  | Callable =>
      match value library (Call c arg) with
      | Raises message => inl (LibraryError message)
      | _ => inr (Call c arg)
      end
  | _ => inl (Rejection (OneError TypeError))
  end.

(** [c.namespaces(namespace)] *)
Definition namespaces (library : Library) (c : chain) (namespace : string)
  : failure + chain :=
  match member library c "namespaces" with
  | inl err => inl err
  | inr method =>
      match value library method with
      | Callable =>
          match value library (Namespaces c namespace) with
          | Raises message => inl (LibraryError message)
          | _ => inr (Namespaces c namespace)
          end
      | _ => inl (Rejection (OneError TypeError))
      end
  end.

(** [apiGroupInfo.version] as [getKubernetesClient] sees it: the whole map
    of a cluster version has no string under this key, and neither has
    [Object.prototype] or a function. *)
Definition info_version (apiGroupInfo : GroupInfo) : option string :=
  match apiGroupInfo with
  | Entry e => Some (version e)
  | WholeMap _ | ObjectPrototype | Builtin _ => None
  end.

(** The truth value of [apiGroupInfo.namespaced]: on the whole map this
    reads the entry of a resource called [namespaced]. *)
Definition info_namespaced (apiGroupInfo : GroupInfo) : bool :=
  match apiGroupInfo with
  | Entry e => namespaced e
  | WholeMap m => bool_decide (is_Some (m !! "namespaced"))
  | ObjectPrototype | Builtin _ => false
  end.

(** [buildChain(kubeconfig, namespace, resourceType, resourceName)] with
    the cache threaded through.  It resolves with the value of the chain
    it returns, which may be [undefined]. *)
Definition buildChain (net : Cluster) (library : Library)
    (defaultNamespace : string) (kubeconfig : option Kubeconfig)
    (namespace : option string) (resourceType : string)
    (resourceName : option string) (apiMaps : ApiMaps)
  : ApiMaps * (failure + chain) :=
  let resourceType := JS.toLowerCase resourceType in
  (* Cluster version defines which API group we'll use *)
  match getVersion net kubeconfig with
  | Throw err => (apiMaps, inl (Rejection (OneError err)))
  | Return gitVersion =>
      let clusterVer := Utils.prettifyVersion gitVersion 2 in
      (* Get the API group for the resource *)
      let '(apiMaps, rejected) :=
        match getGroupInfo apiMaps clusterVer resourceType with
        | None =>
            match buildAPIMap net kubeconfig apiMaps with
            | (apiMaps, Rejected reason) => (apiMaps, Some reason)
            | (apiMaps, Fulfilled _) => (apiMaps, None)
            end
        | Some _ => (apiMaps, None)
        end in
      match rejected with
      | Some reason => (apiMaps, inl (Rejection reason))
      | None =>
          match getGroupInfo apiMaps clusterVer resourceType with
          | None =>
              (apiMaps,
               inl (NoGroupInfo 500
                      ("Could not get API group info for resource '" ++ resourceType
                       ++ "' in cluster with k8s version '" ++ clusterVer ++ "'")))
          | Some apiGroupInfo =>
              (* Get the client to communicate with the cluster *)
              match getKubernetesClient (loadSpec library)
                                        (info_version apiGroupInfo) with
              | inl err => (apiMaps, inl err)
              | inr client =>
                  match value library (Root client) with
                  | Raises message => (apiMaps, inl (LibraryError message))
                  | _ =>
                      let reqChain := Root client in
                      match
                        if info_namespaced apiGroupInfo
                           && negb (JS.strict_eq namespace (Some "all"))
                        then
                          let namespace :=
                            if negb (JS.truthy namespace) then defaultNamespace
                            else JS.to_string namespace in
                          namespaces library reqChain namespace
                        else inr reqChain
                      with
                      | inl err => (apiMaps, inl err)
                      | inr reqChain =>
                          match member library reqChain resourceType with
                          | inl err => (apiMaps, inl err)
                          | inr reqChain =>
                              if JS.truthy resourceName
                              then (apiMaps,
                                    call library reqChain (JS.to_string resourceName))
                              else (apiMaps, inr reqChain)
                          end
                      end
                  end
              end
          end
      end
  end.

(** The client a chain starts from, and the namespaces it names. *)
Fixpoint root (c : chain) : endpoint :=
  match c with
  | Root client => client
  | Namespaces c _ | Member c _ | Call c _ => root c
  end.

Fixpoint namespaces_of (c : chain) : list string :=
  match c with
  | Root _ => []
  | Namespaces c ns => ns :: namespaces_of c
  | Member c _ | Call c _ => namespaces_of c
  end.

End Client.

(** ** Definitions used by the statements about client.js *)

Module ClientSpec.
Import Regex APIMap Runs Token Grammar Client.

Definition is_space (a : ascii) : bool := Ascii.eqb " " a.

Definition three_digits (d : string) : bool :=
  (String.length d =? 3)%nat && all_chars is_digit d.

(** The messages the pattern matches: they end with a colon, any number
    of spaces and three digits. *)
Definition status_suffix (errMsg d : string) : Prop :=
  three_digits d = true
  /\ exists p sp, all_chars is_space sp = true /\ errMsg = p ++ ":" ++ sp ++ d.

(** The first lookup of [buildChain] and the discovery it starts when the
    lookup finds nothing: the cache afterwards, and the reason when the
    discovery is rejected. *)
Definition discovered net kubeconfig clusterVer resourceType (apiMaps : ApiMaps)
  : ApiMaps * option rejection :=
  match getGroupInfo apiMaps clusterVer resourceType with
  | None =>
      match buildAPIMap net kubeconfig apiMaps with
      | (apiMaps, Rejected reason) => (apiMaps, Some reason)
      | (apiMaps, Fulfilled _) => (apiMaps, None)
      end
  | Some _ => (apiMaps, None)
  end.

(** A client selected by a version token: [client.api[v]] or
    [client.apis[g][v]]. *)
Definition versioned (client : endpoint) : Prop :=
  exists t, version_token t = true
            /\ (client = Api (render t)
                \/ exists g, run_of not_slash g = true /\ client = Apis g (render t)).

(** The default namespace after any calls of [changeDefaultNamespace]. *)
Definition defaultNamespace_after (calls : list (option string)) : string :=
  foldl (fun defaultNamespace newDefault =>
           changeDefaultNamespace newDefault defaultNamespace)
        "default" calls.

End ClientSpec.

(** ** Example data *)

Module Cases.
Import APIMap Client Examples.


(** A cluster that answers every request. *)
Definition healthy_cluster : Cluster :=
  {| get_version := fun url =>
       if String.eqb url "https://k8s.example:6443/version" then Return "v1.8.3"
       else Throw (AxiosError None);
     get_resources := fun url =>
       if String.eqb url "https://k8s.example:6443/api/v1" then Return core_v1
       else if String.eqb url "https://k8s.example:6443/apis/apps/v1" then Return apps_v1
       else if String.eqb url "https://k8s.example:6443/apis/apps/v1beta1"
       then Return apps_v1beta1
       else Throw (AxiosError None);
     get_groups := fun url =>
       if String.eqb url "https://k8s.example:6443/apis"
       then Return [ {| preferredVersion := "apps/v1";
                        versions := ["apps/v1"; "apps/v1beta1"] |} ]
       else Throw (AxiosError None) |}.

(** A client of the library that has every member but [widget]. *)
Definition demo_library : Library :=
  {| loadSpec := None;
     value_of := fun c =>
       match c with
       | Member _ "widget" => Undefined
       | _ => Callable
       end |}.

(** A cluster that turns the version request down. *)
Definition unauthorized : js_error := AxiosError (Some (401%Z, "Unauthorized")).

Definition closed_cluster : Cluster :=
  {| get_version := fun _ => Throw unauthorized;
     get_resources := fun _ => Throw unauthorized;
     get_groups := fun _ => Throw unauthorized |}.

(** A kubeconfig with two contexts, the second one current. *)
Definition prod_context : NamedContext :=
  {| context_name := "prod";
     context := {| context_cluster := "east"; context_user := "admin" |} |}.
Definition dev_context : NamedContext :=
  {| context_name := "dev";
     context := {| context_cluster := "local"; context_user := "me" |} |}.
Definition east : NamedCluster :=
  {| cluster_name := "east"; cluster_server := "https://east.example:6443" |}.
Definition local : NamedCluster :=
  {| cluster_name := "local"; cluster_server := "https://k8s.example:6443" |}.

Definition kubeconfig_file : KubeconfigFile :=
  {| current_context := Some "dev";
     contexts := [prod_context; dev_context];
     clusters := [east; local];
     users := [ {| user_name := "admin" |}; {| user_name := "me" |} ] |}.

Definition dev : CurrentContext :=
  {| cluster := local; current := dev_context; user := {| user_name := "me" |} |}.

End Cases.

(** * Properties *)

Import Regex APIMap Runs Token Step Examples.

(** ** Strings *)

Section StringFacts.

Lemma string_app_cons (c : ascii) (a b : string) : String c a ++ b = String c (a ++ b).
Proof. reflexivity. Qed.

Lemma string_ltb_irrefl (s : string) : String.ltb s s = false.
Proof.
  unfold String.ltb.
  pose proof (String.compare_antisym s s) as H.
  destruct (String.compare s s); [done | discriminate H | done].
Qed.

Lemma string_length_app (a b : string) :
  String.length (a ++ b) = (String.length a + String.length b)%nat.
Proof. induction a as [|c a IH]; [done | by rewrite string_app_cons; simpl; rewrite IH]. Qed.

Lemma substring_prefix (a b : string) :
  String.substring 0 (String.length a) (a ++ b) = a.
Proof.
  induction a as [|c a IH].
  - by destruct b.
  - rewrite string_app_cons. simpl. by rewrite IH.
Qed.

Lemma string_app_empty_r (a : string) : a ++ "" = a.
Proof. induction a as [|c a IH]; [done | by rewrite string_app_cons, IH]. Qed.

End StringFacts.

(** ** The matcher on runs of one character class *)

Section RegexFacts.

Lemma run_cat r1 r2 x c : run (Cat r1 r2) x c = run r1 x (fun y => run r2 y c).
Proof. reflexivity. Qed.

Lemma run_group n r x c : run (Group n r) x c = run r x (fun y => c (capture n x y)).
Proof. reflexivity. Qed.

Lemma run_opt r x c :
  run (Opt r) x c
  = first_some (run r (clear (groups r) x)
                    (fun y => if (pos y =? pos x)%nat then None else c y))
               (c x).
Proof. reflexivity. Qed.

Lemma repeat_class p c fuel s i cs :
  (String.length s <= fuel)%nat ->
  repeat (fun y k => run (Class p) (clear [] y) k) c fuel (MState s i cs)
  = greedy p c s i cs.
Proof.
  revert s i. induction fuel as [|fuel IH]; intros s i Hlen.
  - destruct s; simpl in *; [done | lia].
  - destruct s as [|a t]; [done |].
    cbn [repeat run clear rest pos caps foldr greedy].
    destruct (p a); [| done].
    rewrite (proj2 (Nat.eqb_neq (S i) i)) by lia.
    rewrite IH; [done | simpl in Hlen; lia].
Qed.

Lemma run_plus_class p s i cs c :
  run (Plus (Class p)) (MState s i cs) c
  = match s with
    | String a t => if p a then greedy p c t (S i) cs else None
    | EmptyString => None
    end.
Proof.
  destruct s as [|a t]; [done |].
  cbn [run groups clear rest pos caps foldr].
  destruct (p a); [| done].
  apply (repeat_class p c). simpl. lia.
Qed.

Lemma greedy_max p c r tail i cs z :
  all_chars p r = true -> stops p tail ->
  c (MState tail (i + String.length r) cs) = Some z ->
  greedy p c (r ++ tail) i cs = Some z.
Proof.
  revert i. induction r as [|a r IH]; intros i Hall Hstop Hc; simpl in *.
  - rewrite Nat.add_0_r in Hc.
    destruct tail as [|b t]; simpl; [done |].
    simpl in Hstop. by rewrite Hstop.
  - apply andb_prop in Hall as [Ha Hall]. rewrite Ha.
    rewrite (IH (S i)); [done | done | done |].
    by rewrite <- Hc, Nat.add_succ_r.
Qed.

(** [([p]+)] on a run of [p] followed by something else captures the
    whole run, provided the rest of the pattern accepts what follows. *)
Lemma run_group_plus p n r tail i cs k z :
  run_of p r = true -> stops p tail ->
  k (MState tail (i + String.length r) (<[n := r]> cs)) = Some z ->
  run (Group n (Plus (Class p))) (MState (r ++ tail) i cs) k = Some z.
Proof.
  intros Hr Hstop Hk. apply andb_prop in Hr as [Hne Hall].
  destruct r as [|a r]; [by simpl in Hne |].
  simpl in Hall. apply andb_prop in Hall as [Ha Hall].
  rewrite run_group, string_app_cons, run_plus_class, Ha.
  apply greedy_max; [done | done |].
  unfold capture; cbn [rest pos caps].
  replace (S i + String.length r - i)%nat with (String.length (String a r))
    by (simpl; lia).
  rewrite <- string_app_cons, substring_prefix, <- Hk.
  do 2 f_equal. simpl. lia.
Qed.

(** [([p]+)?] on a run of [p]: the group is taken. *)
Lemma run_opt_group_present p n r tail i cs k z :
  run_of p r = true -> stops p tail ->
  k (MState tail (i + String.length r) (<[n := r]> (delete n cs))) = Some z ->
  run (Opt (Group n (Plus (Class p)))) (MState (r ++ tail) i cs) k = Some z.
Proof.
  intros Hr Hstop Hk.
  assert (String.length r <> 0%nat) as Hlen.
  { apply andb_prop in Hr as [Hne _]. by destruct r. }
  rewrite run_opt. unfold clear. cbn [groups rest pos caps foldr app].
  rewrite (run_group_plus p n r tail i _ _ z); [done | done | done |].
  cbn [pos]. by rewrite (proj2 (Nat.eqb_neq _ _)) by lia.
Qed.

(** [([p]+)?] in front of something that is not in [p]: the group is
    skipped and stays [undefined]. *)
Lemma run_opt_group_absent p n s i cs k :
  stops p s ->
  run (Opt (Group n (Plus (Class p)))) (MState s i cs) k = k (MState s i cs).
Proof.
  intros Hstop.
  rewrite run_opt, run_group. unfold clear. cbn [groups rest pos caps foldr app].
  rewrite run_plus_class.
  destruct s as [|a t]; [done |].
  simpl in Hstop. by rewrite Hstop.
Qed.

Lemma lower_not_digit (a : ascii) :
  JS.char_between "a" "z" a = true -> JS.char_between "0" "9" a = false.
Proof.
  unfold JS.char_between.
  rewrite andb_true_iff, andb_false_iff, !Nat.leb_le, !Nat.leb_gt.
  change (nat_of_ascii "a") with 97%nat. change (nat_of_ascii "9") with 57%nat.
  lia.
Qed.

Lemma digit_not_lower (a : ascii) :
  JS.char_between "0" "9" a = true -> JS.char_between "a" "z" a = false.
Proof.
  unfold JS.char_between.
  rewrite andb_true_iff, andb_false_iff, !Nat.leb_le, !Nat.leb_gt.
  change (nat_of_ascii "a") with 97%nat. change (nat_of_ascii "9") with 57%nat.
  lia.
Qed.

(** What follows a run of one class stops the other class. *)
Lemma stops_run p q r tail :
  (forall a, p a = true -> q a = false) ->
  run_of p r = true -> stops q (r ++ tail).
Proof.
  intros Hpq [Hne Hall]%andb_prop.
  destruct r as [|a r]; [done |].
  simpl in Hall. apply andb_prop in Hall as [Ha _].
  rewrite string_app_cons. simpl. by apply Hpq.
Qed.


End RegexFacts.

(** ** The comparator on well-formed version tokens *)

Section Comparator.

(** The two patterns on some group-versions and tokens. *)
Example extractVerRegex_apps :
  exec_index (exec extractVerRegex "apps/v1beta1") 2 = Return (Some "v1beta1")
  /\ exec_index (exec extractVerRegex "apps/v1beta1") 1 = Return (Some "apps/")
  /\ exec_index (exec extractVerRegex "apps/v1beta1") 3 = Return (Some "beta1").
Proof. repeat split; vm_compute; reflexivity. Qed.

Example extractVerRegex_core :
  exec_index (exec extractVerRegex "v1") 2 = Return (Some "v1")
  /\ exec_index (exec extractVerRegex "v1") 1 = Return None.
Proof. split; vm_compute; reflexivity. Qed.

Example extractVerRegex_rejects :
  exec extractVerRegex "apps/v1/scale" = None
  /\ exec extractVerRegex "/v1" = None
  /\ exec extractVerRegex "apps/1" = None
  /\ exec extractVerRegex "apps/v1beta" = None.
Proof. repeat split; vm_compute; reflexivity. Qed.

Example verRegex_v1 :
  exec_index (exec verRegex "v1") 2 = Return (Some "1")
  /\ exec_index (exec verRegex "v1") 3 = Return None
  /\ exec_index (exec verRegex "v1") 4 = Return None.
Proof. repeat split; vm_compute; reflexivity. Qed.

Example verRegex_v2alpha10 :
  exec_index (exec verRegex "v2alpha10") 2 = Return (Some "2")
  /\ exec_index (exec verRegex "v2alpha10") 3 = Return (Some "alpha")
  /\ exec_index (exec verRegex "v2alpha10") 4 = Return (Some "10").
Proof. repeat split; vm_compute; reflexivity. Qed.

(** The pattern is not anchored: it matches inside a string. *)
Example verRegex_unanchored :
  exec_index (exec verRegex "V1beta1x") 1 = Return (Some "beta")
  /\ exec_index (exec verRegex "V1beta1x") 2 = Return (Some "1")
  /\ exec verRegex "beta" = None.
Proof. repeat split; vm_compute; reflexivity. Qed.

Lemma exec_from_hit r s i y :
  run r (MState s i ∅) Some = Some y ->
  exec_from r s i = Some (<[0%nat := String.substring 0 (pos y - i) s]> (caps y)).
Proof. intros H. destruct s; simpl; by rewrite H. Qed.

(** On a well-formed token [verRegex] matches at index 0, and groups 2, 3
    and 4 are the major numeral, the label and the minor numeral. *)
Lemma exec_verRegex_token (t : VersionToken) :
  well_formed t = true ->
  exists m, exec verRegex (render t) = Some m
            /\ m !! 2%nat = Some (major t)
            /\ m !! 3%nat = label t
            /\ m !! 4%nat = numeral t.
Proof.
  destruct t as [L D mi]. unfold well_formed, render, label, numeral, exec.
  cbn [letters major minor].
  intros [[HL HD]%andb_prop Hmi]%andb_prop.
  destruct mi as [[l n]|].
  - apply andb_prop in Hmi as [Hl Hn].
    eexists. split.
    + apply exec_from_hit. unfold verRegex. rewrite !run_cat.
      apply run_group_plus; [exact HL | |].
      { apply (stops_run is_digit); [apply digit_not_lower | done]. }
      apply run_group_plus; [exact HD | |].
      { apply (stops_run is_lower); [apply lower_not_digit | done]. }
      apply run_opt_group_present; [exact Hl | |].
      { rewrite <- (string_app_empty_r n).
        apply (stops_run is_digit); [apply digit_not_lower | done]. }
      rewrite <- (string_app_empty_r n) at 1.
      apply run_opt_group_present; [exact Hn | done |].
      reflexivity.
    + cbn [caps fmap option_fmap option_map fst snd]. by simplify_map_eq.
  - eexists. split.
    + apply exec_from_hit. unfold verRegex. rewrite !run_cat.
      apply run_group_plus; [exact HL | |].
      { apply (stops_run is_digit); [apply digit_not_lower | done]. }
      apply run_group_plus; [exact HD | done |]. cbn beta.
      unfold lower, digit.
      rewrite run_opt_group_absent by done.
      rewrite run_opt_group_absent by done.
      reflexivity.
    + cbn [caps fmap option_fmap option_map]. by simplify_map_eq.
Qed.

(** The comparator on two well-formed tokens, in terms of their parts. *)
Lemma compare_tokens (a b : VersionToken) :
  well_formed a = true -> well_formed b = true ->
  compareAPIVersions (render a) (render b)
  = Return
      (if JS.gt (Some (major a)) (Some (major b)) then 1
       else if JS.lt (Some (major a)) (Some (major b)) then -1
       else if JS.strict_eq (label a) (Some "beta")
               && JS.strict_eq (label b) (Some "alpha") then 1
       else if JS.strict_eq (label a) (Some "alpha")
               && JS.strict_eq (label b) (Some "beta") then -1
       else if JS.gt (numeral a) (numeral b) then 1
       else if JS.lt (numeral a) (numeral b) then -1
       else 0)%Z.
Proof.
  intros Ha Hb.
  destruct (exec_verRegex_token a Ha) as (ma & Hea & Ha2 & Ha3 & Ha4).
  destruct (exec_verRegex_token b Hb) as (mb & Heb & Hb2 & Hb3 & Hb4).
  unfold compareAPIVersions. rewrite Hea, Heb.
  cbn [exec_index obind]. by rewrite Ha2, Ha3, Ha4, Hb2, Hb3, Hb4.
Qed.

(** C8: two well-formed tokens with the same major numeral, one labelled
    [beta] and the other [alpha]: the comparator ranks the [beta] token
    greater, in either argument order and whatever the minor numerals. *)
Theorem beta_outranks_alpha (a b : VersionToken) (na nb : string) :
  well_formed a = true -> well_formed b = true ->
  major a = major b ->
  minor a = Some ("beta", na) -> minor b = Some ("alpha", nb) ->
  compareAPIVersions (render a) (render b) = Return 1%Z
  /\ compareAPIVersions (render b) (render a) = Return (-1)%Z.
Proof.
  intros Ha Hb Hmaj Hma Hmb.
  rewrite !compare_tokens by done.
  unfold label, numeral, JS.gt, JS.lt. rewrite Hma, Hmb, Hmaj, string_ltb_irrefl.
  done.
Qed.

Lemma beta_outranks_alpha_witness :
  compareAPIVersions "v1beta1" "v1alpha2" = Return 1%Z
  /\ compareAPIVersions "v1alpha2" "v1beta1" = Return (-1)%Z.
Proof.
  exact (beta_outranks_alpha v1beta1 v1alpha2 "1" "2"
           eq_refl eq_refl eq_refl eq_refl eq_refl).
Defined.

(** *** Numerals of the same length

    The comparator orders numerals as strings.  On two numerals with the
    same number of digits that is the order of the integers they denote. *)

Lemma ascii_compare_nat (a b : ascii) :
  Ascii.compare a b = Nat.compare (nat_of_ascii a) (nat_of_ascii b).
Proof.
  unfold Ascii.compare, nat_of_ascii. apply N2Nat.inj_compare.
Qed.

Lemma is_digit_range (c : ascii) :
  is_digit c = true -> 48 <= nat_of_ascii c <= 57.
Proof.
  unfold is_digit, JS.char_between.
  rewrite andb_true_iff, !Nat.leb_le.
  change (nat_of_ascii "0") with 48%nat. change (nat_of_ascii "9") with 57%nat.
  done.
Qed.

Lemma numeral_value_bound (s : string) :
  all_chars is_digit s = true -> numeral_value s < 10 ^ String.length s.
Proof.
  induction s as [|c t IH]; intros Hall; simpl in *; [lia |].
  apply andb_prop in Hall as [Hc Ht]. apply is_digit_range in Hc.
  specialize (IH Ht). unfold digit_value. nia.
Qed.

Lemma compare_same_length (a b : string) :
  all_chars is_digit a = true -> all_chars is_digit b = true ->
  String.length a = String.length b ->
  String.compare a b = Nat.compare (numeral_value a) (numeral_value b).
Proof.
  revert b. induction a as [|c a IH]; intros [|d b] Ha Hb Hlen;
    simpl in Hlen; try discriminate; [done |].
  injection Hlen as Hlen. simpl in Ha, Hb.
  apply andb_prop in Ha as [Hc Ha]. apply andb_prop in Hb as [Hd Hb].
  pose proof (numeral_value_bound a Ha) as Hba.
  pose proof (numeral_value_bound b Hb) as Hbb.
  apply is_digit_range in Hc, Hd.
  cbn [String.compare numeral_value]. rewrite ascii_compare_nat, (IH b Ha Hb Hlen).
  rewrite Hlen in *. unfold digit_value.
  set (P := 10 ^ String.length b) in *.
  destruct (Nat.compare_spec (nat_of_ascii c) (nat_of_ascii d)) as [Heq|Hlt|Hgt].
  - rewrite Heq.
    destruct (Nat.compare_spec (numeral_value a) (numeral_value b));
      symmetry; [apply Nat.compare_eq_iff | apply Nat.compare_lt_iff
                 | apply Nat.compare_gt_iff]; lia.
  - symmetry. apply Nat.compare_lt_iff. nia.
  - symmetry. apply Nat.compare_gt_iff. nia.
Qed.

Lemma js_lt_same_length (a b : string) :
  all_chars is_digit a = true -> all_chars is_digit b = true ->
  String.length a = String.length b ->
  JS.lt (Some a) (Some b) = (numeral_value a <? numeral_value b)%nat.
Proof.
  intros Ha Hb Hlen. cbn [JS.lt]. unfold String.ltb.
  rewrite (compare_same_length a b Ha Hb Hlen).
  destruct (Nat.compare_spec (numeral_value a) (numeral_value b));
    symmetry; [apply Nat.ltb_ge | apply Nat.ltb_lt | apply Nat.ltb_ge]; lia.
Qed.

(** Where the comparator does follow the integers: two well-formed tokens
    whose major numerals have the same number of digits and differ. *)
Lemma compare_majors_same_length (a b : VersionToken) :
  well_formed a = true -> well_formed b = true ->
  String.length (major a) = String.length (major b) ->
  numeral_value (major a) <> numeral_value (major b) ->
  compareAPIVersions (render a) (render b)
  = Return (if (numeral_value (major b) <? numeral_value (major a))%nat
            then 1 else -1)%Z.
Proof.
  intros Ha Hb Hlen Hne. rewrite compare_tokens by done.
  assert (all_chars is_digit (major a) = true) as Hda.
  { unfold well_formed in Ha.
    apply andb_prop in Ha as [[_ [_ H]%andb_prop]%andb_prop _]. exact H. }
  assert (all_chars is_digit (major b) = true) as Hdb.
  { unfold well_formed in Hb.
    apply andb_prop in Hb as [[_ [_ H]%andb_prop]%andb_prop _]. exact H. }
  unfold JS.gt. rewrite !js_lt_same_length by done.
  destruct (Nat.ltb_spec (numeral_value (major b)) (numeral_value (major a)));
    [done |].
  destruct (Nat.ltb_spec (numeral_value (major a)) (numeral_value (major b)));
    [done | lia].
Qed.

End Comparator.

(** ** The fold *)

Section Fold.

(** A sub-resource is a name with a [/] somewhere in it. *)
Lemma index_slash_cons (b : ascii) (t : string) :
  String.index 0 "/" (String b t)
  = if Ascii.eqb "/" b then Some 0%nat
    else match String.index 0 "/" t with
         | Some n => Some (S n)
         | None => None
         end.
Proof.
  cbn [String.index String.prefix].
  destruct (ascii_dec "/" b) as [<-|Hne].
  - rewrite Ascii.eqb_refl. by destruct t.
  - by rewrite (proj2 (Ascii.eqb_neq _ _) Hne).
Qed.

Lemma index_slash (s : string) :
  String.index 0 "/" s = None <-> ~ In "/"%char (list_ascii_of_string s).
Proof.
  induction s as [|b t IH]; [simpl; tauto |].
  rewrite index_slash_cons. cbn [list_ascii_of_string In].
  destruct (Ascii.eqb_spec "/" b) as [<-|Hne].
  - split; [discriminate | intros H; exfalso; apply H; by left].
  - destruct (String.index 0 "/" t) as [i|].
    + split; [discriminate |].
      intros H. destruct IH as [_ IH].
      assert (Some i = None) as Hi by (apply IH; intros Hin; apply H; by right).
      discriminate Hi.
    + split; [| done]. intros _ [Hb | Hin]; [by apply Hne | by apply IH].
Qed.

Lemma sub_resource_spec (s : string) :
  sub_resource s = true <-> In "/"%char (list_ascii_of_string s).
Proof.
  unfold sub_resource, JS.indexOf.
  destruct (String.index 0 "/" s) as [i|] eqn:Hi.
  - split; [intros _ | intros _; apply negb_true_iff, Z.eqb_neq; lia].
    destruct (in_dec ascii_dec "/"%char (list_ascii_of_string s)) as [|Hn]; [done |].
    apply index_slash in Hn. congruence.
  - split; [done |]. intros Hin. by apply index_slash in Hin.
Qed.

Lemma extractVerRegex_undefined :
  exec_index (Regex.exec extractVerRegex (JS.to_string None)) 2 = Throw TypeError.
Proof. reflexivity. Qed.

Lemma mapResource_action clusterVer groupVer ver preferredGroupVer resource apiMaps :
  mapResource clusterVer groupVer ver preferredGroupVer resource apiMaps
  = if sub_resource (name resource) then (apiMaps, Return tt)
    else match decide_action ver preferredGroupVer (name resource)
                 (entry apiMaps clusterVer (name resource)) with
         | Keep => (apiMaps, Return tt)
         | Raise e => (apiMaps, Throw e)
         | Put => (put clusterVer groupVer resource apiMaps, Return tt)
         end.
Proof.
  unfold mapResource, sub_resource, decide_action, put.
  destruct (negb _); [done |].
  unfold bind, read_entry, lift, ret, write_entry. cbn [fst snd].
  destruct (entry apiMaps clusterVer (name resource)) as [e|].
  2: { destruct (JS.inherited (name resource)); [| done].
       by rewrite extractVerRegex_undefined. }
  destruct (exec_index _ 2) as [currVer|err]; cbn [obind]; [| done].
  destruct (_ && _ && _); [done |].
  destruct (negb (JS.truthy (Some (version e)))) eqn:Ht; [done |].
  apply negb_false_iff in Ht. rewrite Ht.
  destruct (compareAPIVersions _ _) as [c|err]; cbn [obind]; [| done].
  by destruct (c <? 0)%Z.
Qed.

(** *** Reading and writing entries *)

Lemma entry_put_eq clusterVer groupVer resource apiMaps :
  entry (put clusterVer groupVer resource apiMaps) clusterVer (name resource)
  = Some {| version := groupVer; namespaced := resource_namespaced resource |}.
Proof.
  unfold entry, put, write_entry. cbn [fst].
  rewrite lookup_insert_eq. cbn. by rewrite lookup_insert_eq.
Qed.

Lemma entry_put_ne clusterVer groupVer resource apiMaps k :
  k <> name resource ->
  entry (put clusterVer groupVer resource apiMaps) clusterVer k
  = entry apiMaps clusterVer k.
Proof.
  intros Hk. unfold entry, put, write_entry. cbn [fst].
  rewrite lookup_insert_eq. cbn. rewrite lookup_insert_ne by done.
  by destruct (apiMaps !! clusterVer).
Qed.

Lemma put_known clusterVer groupVer resource apiMaps :
  entry apiMaps clusterVer (name resource)
  = Some {| version := groupVer; namespaced := resource_namespaced resource |} ->
  put clusterVer groupVer resource apiMaps = apiMaps.
Proof.
  unfold entry, put, write_entry. cbn [fst]. intros H.
  destruct (apiMaps !! clusterVer) as [m|] eqn:Hm; [| done]. cbn in *.
  rewrite (insert_id m) by done. by apply insert_id.
Qed.

Lemma put_cluster clusterVer groupVer resource apiMaps :
  is_Some (put clusterVer groupVer resource apiMaps !! clusterVer).
Proof. unfold put, write_entry. cbn [fst]. rewrite lookup_insert_eq. eauto. Qed.

(** *** The loop *)

Lemma for_of_cons {A} (x : A) xs body apiMaps :
  for_of (x :: xs) body apiMaps
  = match body x apiMaps with
    | (apiMaps', Return _) => for_of xs body apiMaps'
    | (apiMaps', Throw e) => (apiMaps', Throw e)
    end.
Proof. reflexivity. Qed.

(** A property of the cache that every iteration preserves holds when
    the loop is left, normally or by an exception. *)
Lemma for_of_preserves {A} (P : ApiMaps -> Prop) (xs : list A) body :
  (forall x apiMaps, x ∈ xs -> P apiMaps -> P (body x apiMaps).1) ->
  forall apiMaps, P apiMaps -> P (for_of xs body apiMaps).1.
Proof.
  induction xs as [|x xs IH]; intros Hbody apiMaps HP; [done |].
  rewrite for_of_cons.
  pose proof (Hbody x apiMaps (list_elem_of_here _ _) HP) as Hx.
  destruct (body x apiMaps) as [apiMaps' [[]|e]]; cbn [fst] in *; [| done].
  apply IH; [| done].
  intros y a Hy. apply Hbody. by apply list_elem_of_further.
Qed.

Lemma ensure_cluster_entry clusterVer apiMaps k :
  entry (ensure_cluster clusterVer apiMaps).1 clusterVer k = entry apiMaps clusterVer k.
Proof.
  unfold ensure_cluster, entry.
  destruct (apiMaps !! clusterVer) eqn:Hm; cbn [fst].
  - by rewrite Hm.
  - by rewrite lookup_insert_eq.
Qed.

Lemma ensure_cluster_known clusterVer apiMaps :
  is_Some (apiMaps !! clusterVer) -> ensure_cluster clusterVer apiMaps = (apiMaps, Return tt).
Proof. intros [m Hm]. unfold ensure_cluster. by rewrite Hm. Qed.

Lemma ensure_cluster_returns clusterVer apiMaps :
  (ensure_cluster clusterVer apiMaps).2 = Return tt
  /\ is_Some ((ensure_cluster clusterVer apiMaps).1 !! clusterVer).
Proof.
  unfold ensure_cluster.
  destruct (apiMaps !! clusterVer) eqn:Hm; cbn [fst snd];
    (split; [done |]); rewrite ?lookup_insert_eq, ?Hm; eauto.
Qed.

(** The cache after [mapGroupResources]: untouched when the group-version
    of the response does not parse, otherwise what the loop leaves. *)
Lemma mapGroupResources_state clusterVer resourcesResp preferredGroupVer apiMaps :
  (mapGroupResources clusterVer resourcesResp preferredGroupVer apiMaps).1
  = match exec_index (Regex.exec extractVerRegex (groupVersion resourcesResp)) 2 with
    | Throw _ => apiMaps
    | Return ver =>
        (for_of (resources resourcesResp)
                (mapResource clusterVer (groupVersion resourcesResp) ver preferredGroupVer)
                (ensure_cluster clusterVer apiMaps).1).1
    end.
Proof.
  unfold mapGroupResources, bind, lift.
  destruct (exec_index _ 2) as [ver|err]; [| done].
  destruct (ensure_cluster_returns clusterVer apiMaps) as [Hr _].
  destruct (ensure_cluster clusterVer apiMaps) as [a1 o1]. cbn [fst snd] in *. subst o1.
  by destruct (for_of _ _ a1) as [a2 [[]|e]].
Qed.

Lemma mapResource_frame clusterVer groupVer ver preferredGroupVer resource apiMaps k :
  (name resource = k -> sub_resource (name resource) = true) ->
  entry (mapResource clusterVer groupVer ver preferredGroupVer resource apiMaps).1
        clusterVer k
  = entry apiMaps clusterVer k.
Proof.
  intros Hk. rewrite mapResource_action.
  destruct (sub_resource (name resource)) eqn:Hsub; [done |].
  destruct (decide_action _ _ _ _); [done | done |]. cbn [fst].
  apply entry_put_ne. intros ->. by specialize (Hk eq_refl).
Qed.

(** Folding a response changes an entry only through a descriptor that
    bears the entry's name and is not a sub-resource. *)
Lemma mapGroupResources_frame clusterVer resourcesResp preferredGroupVer apiMaps k :
  Forall (fun r => name r = k -> sub_resource (name r) = true)
         (resources resourcesResp) ->
  entry (mapGroupResources clusterVer resourcesResp preferredGroupVer apiMaps).1
        clusterVer k
  = entry apiMaps clusterVer k.
Proof.
  intros Hall. rewrite mapGroupResources_state.
  destruct (exec_index _ 2) as [ver|err]; [| done].
  rewrite <- (ensure_cluster_entry clusterVer apiMaps k).
  apply (for_of_preserves
           (fun a => entry a clusterVer k
                     = entry (ensure_cluster clusterVer apiMaps).1 clusterVer k));
    [| done].
  intros r a Hr <-. apply mapResource_frame.
  rewrite Forall_forall in Hall. by apply Hall.
Qed.

Lemma for_of_without_sub_resources clusterVer groupVer ver preferredGroupVer rs apiMaps :
  for_of rs (mapResource clusterVer groupVer ver preferredGroupVer) apiMaps
  = for_of (filter (fun r => sub_resource (name r) = false) rs)
           (mapResource clusterVer groupVer ver preferredGroupVer) apiMaps.
Proof.
  revert apiMaps. induction rs as [|r rs IH]; intros apiMaps; [done |].
  destruct (sub_resource (name r)) eqn:Hsub.
  - rewrite filter_cons_False by (by rewrite Hsub).
    rewrite for_of_cons, mapResource_action, Hsub. apply IH.
  - rewrite filter_cons_True by done.
    rewrite !for_of_cons.
    destruct (mapResource _ _ _ _ r apiMaps) as [a' [[]|e]]; [apply IH | done].
Qed.

(** C9: a descriptor whose name contains [/] writes nothing: no fold
    changes the entry under a key that contains [/] (such as
    ["pods/log"]); a fold changes the entry under a key (such as ["log"])
    only through a descriptor that bears exactly that name; and folding a
    response is the same as folding it without its sub-resource
    descriptors. *)
Theorem sub_resource_exclusion clusterVer resourcesResp preferredGroupVer apiMaps :
  (forall k, sub_resource k = true ->
     entry (mapGroupResources clusterVer resourcesResp preferredGroupVer apiMaps).1
           clusterVer k
     = entry apiMaps clusterVer k)
  /\ (forall k, Forall (fun r => name r <> k) (resources resourcesResp) ->
     entry (mapGroupResources clusterVer resourcesResp preferredGroupVer apiMaps).1
           clusterVer k
     = entry apiMaps clusterVer k)
  /\ mapGroupResources clusterVer resourcesResp preferredGroupVer apiMaps
     = mapGroupResources clusterVer (without_sub_resources resourcesResp)
                         preferredGroupVer apiMaps.
Proof.
  split; [| split].
  - intros k Hk. apply mapGroupResources_frame.
    apply Forall_forall. by intros r _ ->.
  - intros k Hk. apply mapGroupResources_frame.
    eapply Forall_impl; [exact Hk |]. by intros r Hr ?.
  - unfold mapGroupResources, bind. cbn [groupVersion resources without_sub_resources].
    destruct (lift _ apiMaps) as [a0 [ver|err]]; [| done].
    destruct (ensure_cluster clusterVer a0) as [a1 [[]|err]]; [| done].
    by rewrite for_of_without_sub_resources.
Qed.

Lemma sub_resource_exclusion_witness :
  entry (mapGroupResources "1.8" pods_and_log None ∅).1 "1.8" "pods/log" = None
  /\ entry (mapGroupResources "1.8" pods_and_log None ∅).1 "1.8" "log" = None.
Proof.
  destruct (sub_resource_exclusion "1.8" pods_and_log None ∅) as (Hsub & Hname & _).
  split.
  - exact (Hsub "pods/log" eq_refl).
  - apply (Hname "log"). repeat constructor; discriminate.
Defined.

(** C4 (as the code has it): an entry whose group-version is the
    preferred group-version a fold is called with survives that fold
    unchanged, whatever the group-version of the response and however the
    comparator ranks it. *)
Theorem sticky_preferred clusterVer resourcesResp preferredGroupVer apiMaps k e :
  entry apiMaps clusterVer k = Some e ->
  version e = preferredGroupVer -> preferredGroupVer <> "" ->
  entry (mapGroupResources clusterVer resourcesResp (Some preferredGroupVer) apiMaps).1
        clusterVer k
  = Some e.
Proof.
  intros He Hver Hne. rewrite mapGroupResources_state.
  destruct (exec_index _ 2) as [ver|err]; [| done].
  apply (for_of_preserves (fun a => entry a clusterVer k = Some e));
    [| by rewrite ensure_cluster_entry].
  intros r a _ Ha.
  destruct (decide (name r = k)) as [Hk|Hk];
    [| by rewrite mapResource_frame].
  rewrite mapResource_action.
  destruct (sub_resource (name r)); [done |].
  rewrite Hk, Ha. unfold decide_action.
  destruct (exec_index _ 2) as [currVer|err]; [| done].
  assert (JS.truthy (Some (version e)) = true) as ->.
  { rewrite Hver. cbn. by apply negb_true_iff, String.eqb_neq. }
  assert (JS.truthy (Some preferredGroupVer) = true) as ->.
  { cbn. by apply negb_true_iff, String.eqb_neq. }
  cbn [JS.strict_eq andb]. rewrite Hver, String.eqb_refl. done.
Qed.

(** *** Idempotence *)

Lemma strict_eq_beta_alpha (l : option string) :
  JS.strict_eq l (Some "beta") && JS.strict_eq l (Some "alpha") = false.
Proof.
  destruct l as [l|]; [| done]. cbn [JS.strict_eq].
  destruct (String.eqb_spec l "beta") as [->|]; done.
Qed.

Lemma js_lt_irrefl (v : option string) : JS.lt v v = false.
Proof. destruct v; [apply string_ltb_irrefl | done]. Qed.

(** A version never ranks below itself. *)
Lemma compareAPIVersions_refl (v : string) (c : Z) :
  compareAPIVersions v v = Return c -> c = 0%Z.
Proof.
  unfold compareAPIVersions.
  destruct (Regex.exec verRegex v) as [m|]; cbn [exec_index obind]; [| done].
  unfold JS.gt. rewrite !js_lt_irrefl, strict_eq_beta_alpha.
  rewrite andb_comm, strict_eq_beta_alpha. by intros [= <-].
Qed.

Lemma extractVerRegex_empty : Regex.exec extractVerRegex "" = None.
Proof. reflexivity. Qed.

Section Loop.
Variables (clusterVer groupVer : string) (ver preferredGroupVer : option string).
Hypothesis Hver :
  exec_index (Regex.exec extractVerRegex groupVer) 2 = Return ver.

Local Abbreviation body := (mapResource clusterVer groupVer ver preferredGroupVer).
Local Abbreviation quiet_here := (quiet clusterVer groupVer ver preferredGroupVer).

(** The entry the body writes for its own resource makes the body keep
    it the next time. *)
Lemma decide_action_own k ns :
  decide_action ver preferredGroupVer k
    (Some {| version := groupVer; namespaced := ns |}) <> Put.
Proof.
  unfold decide_action. cbn [version]. rewrite Hver.
  destruct (_ && _ && _); [done |].
  destruct (negb (JS.truthy (Some groupVer))) eqn:Ht.
  { apply negb_true_iff in Ht. cbn in Ht. apply negb_false_iff in Ht.
    apply String.eqb_eq in Ht. subst groupVer.
    by rewrite extractVerRegex_empty in Hver. }
  destruct (compareAPIVersions _ _) as [c|err] eqn:Hc; [| done].
  apply compareAPIVersions_refl in Hc. by subst c.
Qed.

Lemma quiet_iff apiMaps r :
  quiet_here apiMaps r <->
  sub_resource (name r) = true
  \/ decide_action ver preferredGroupVer (name r)
                   (entry apiMaps clusterVer (name r)) <> Put
  \/ entry apiMaps clusterVer (name r)
     = Some {| version := groupVer; namespaced := resource_namespaced r |}.
Proof.
  unfold quiet. rewrite mapResource_action.
  destruct (sub_resource (name r)); [by intuition |].
  destruct (decide_action _ _ _ _) eqn:Hact; cbn [fst];
    try (split; [intros _; right; left; done | done]).
  split.
  - intros Hput. right; right. by rewrite <- Hput, entry_put_eq.
  - intros [? | [? | Hk]]; [done | done |]. by apply put_known.
Qed.

Lemma body_quiet_after apiMaps r : quiet_here (body r apiMaps).1 r.
Proof.
  apply quiet_iff. rewrite mapResource_action.
  destruct (sub_resource (name r)) eqn:Hsub; [by left |].
  destruct (decide_action ver preferredGroupVer (name r)
              (entry apiMaps clusterVer (name r))) eqn:Hact; cbn [fst];
    [right; left; by rewrite Hact .. |].
  right; right. apply entry_put_eq.
Qed.

Lemma quiet_preserved apiMaps r r' :
  quiet_here apiMaps r -> quiet_here (body r' apiMaps).1 r.
Proof.
  intros Hq. rewrite mapResource_action.
  destruct (sub_resource (name r')) eqn:Hsub'; [done |].
  destruct (decide_action _ _ _ (entry apiMaps clusterVer (name r')));
    cbn [fst]; [done | done |].
  apply quiet_iff. apply quiet_iff in Hq.
  destruct (decide (name r = name r')) as [Hn|Hn].
  - right; left. rewrite Hn, entry_put_eq. apply decide_action_own.
  - rewrite entry_put_ne by done. exact Hq.
Qed.

Lemma quiet_for_of apiMaps r rs :
  quiet_here apiMaps r -> quiet_here (for_of rs body apiMaps).1 r.
Proof.
  intros Hq. apply (for_of_preserves (fun a => quiet_here a r)); [| done].
  intros r' a _. apply quiet_preserved.
Qed.

Lemma body_throw_keeps apiMaps apiMaps' r e :
  body r apiMaps = (apiMaps', Throw e) -> apiMaps' = apiMaps.
Proof.
  rewrite mapResource_action.
  destruct (sub_resource (name r)); [done |].
  destruct (decide_action _ _ _ _); [done | | done]. by intros [= <- _].
Qed.

Lemma for_of_idempotent rs apiMaps :
  (for_of rs body (for_of rs body apiMaps).1).1 = (for_of rs body apiMaps).1.
Proof.
  revert apiMaps. induction rs as [|r rs IH]; intros apiMaps; [done |].
  rewrite (for_of_cons r rs body apiMaps).
  destruct (body r apiMaps) as [a' [[]|e]] eqn:Hr.
  - pose proof (body_quiet_after apiMaps r) as Hq. rewrite Hr in Hq.
    cbn [fst] in Hq |- *.
    apply (quiet_for_of _ _ rs) in Hq. unfold quiet in Hq.
    rewrite for_of_cons.
    destruct (body r (for_of rs body a').1) as [a'' [[]|e]];
      cbn [fst] in *; subst a''; [apply IH | done].
  - pose proof (body_throw_keeps _ _ _ _ Hr) as ->. cbn [fst].
    by rewrite for_of_cons, Hr.
Qed.

End Loop.

Lemma mapResource_keeps_cluster clusterVer groupVer ver preferredGroupVer r apiMaps :
  is_Some (apiMaps !! clusterVer) ->
  is_Some ((mapResource clusterVer groupVer ver preferredGroupVer r apiMaps).1
             !! clusterVer).
Proof.
  intros Hm. rewrite mapResource_action.
  destruct (sub_resource (name r)); [done |].
  destruct (decide_action _ _ _ _); [done | done | apply put_cluster].
Qed.

(** C7: folding the same response again, with the same preferred
    group-version, leaves the whole cache (and so the map of the cluster
    version) as the first fold left it. *)
Theorem fold_idempotent clusterVer resourcesResp preferredGroupVer apiMaps :
  (mapGroupResources clusterVer resourcesResp preferredGroupVer
     (mapGroupResources clusterVer resourcesResp preferredGroupVer apiMaps).1).1
  = (mapGroupResources clusterVer resourcesResp preferredGroupVer apiMaps).1.
Proof.
  rewrite !mapGroupResources_state.
  destruct (exec_index _ 2) as [ver|err] eqn:Hver; [| done].
  set (body := mapResource clusterVer (groupVersion resourcesResp) ver preferredGroupVer).
  set (a0 := (ensure_cluster clusterVer apiMaps).1).
  assert (is_Some ((for_of (resources resourcesResp) body a0).1 !! clusterVer)) as Hk.
  { apply (for_of_preserves (fun a => is_Some (a !! clusterVer))).
    - intros r a _. apply mapResource_keeps_cluster.
    - apply ensure_cluster_returns. }
  rewrite (ensure_cluster_known _ _ Hk). cbn [fst].
  by apply for_of_idempotent.
Qed.

End Fold.

(** ** Scenarios *)

Section Scenarios.

(** C1: in the preferred-version scenario the comparator ranks [v1beta1]
    and [v1] equal, the entry of [apps/v1beta1] is kept when [apps/v1] is
    folded, and the lookup of ["deployment"] returns the [apps/v1beta1]
    entry. *)
Theorem scenario_keeps_first_version :
  compareAPIVersions "v1beta1" "v1" = Return 0%Z
  /\ getGroupInfo scenario_cache "1.8" "deployment"
     = Some (Entry {| version := "apps/v1beta1"; namespaced := true |}).
Proof. split; vm_compute; reflexivity. Qed.

(** C2: the major numerals are compared as strings: [v10] ranks below
    [v9], although 10 - 9 is positive. *)
Theorem major_compared_as_strings :
  compareAPIVersions "v10" "v9" = Return (-1)%Z
  /\ compareAPIVersions "v9" "v10" = Return 1%Z
  /\ (0 < Z.of_nat (numeral_value "10") - Z.of_nat (numeral_value "9"))%Z.
Proof.
  split; [| split].
  - vm_compute. reflexivity.
  - vm_compute. reflexivity.
  - vm_compute. reflexivity.
Qed.

(** C3: the minor numerals are compared as strings, and an absent minor
    numeral compares equal to a present one: [v1beta10] ranks below
    [v1beta2], and [v1beta1] and [v1] rank equal in both orders. *)
Theorem minor_compared_as_strings :
  compareAPIVersions "v1beta10" "v1beta2" = Return (-1)%Z
  /\ (numeral_value "2" < numeral_value "10")%nat
  /\ compareAPIVersions "v1beta1" "v1" = Return 0%Z
  /\ compareAPIVersions "v1" "v1beta1" = Return 0%Z.
Proof.
  split; [| split; [| split]].
  - vm_compute. reflexivity.
  - vm_compute. lia.
  - vm_compute. reflexivity.
  - vm_compute. reflexivity.
Qed.

(** C4, as stated, fails: the entry of [deployments] is [apps/v1], the
    preferred group-version of the group [apps]; folding a response of
    another group, with that group's preferred group-version, replaces
    it. *)
Lemma sticky_preferred_counterexample :
  entry apps_cache "1.8" "deployments"
  = Some {| version := "apps/v1"; namespaced := true |}
  /\ entry (mapGroupResources "1.8" extensions_v2beta1
              (Some "extensions/v2beta1") apps_cache).1 "1.8" "deployments"
     = Some {| version := "extensions/v2beta1"; namespaced := true |}
  /\ entry (mapGroupResources "1.8" extensions_v2beta1
              (Some "extensions/v2beta1") apps_cache).1 "1.8" "deployments"
     <> entry apps_cache "1.8" "deployments".
Proof.
  split; [| split].
  - vm_compute. reflexivity.
  - vm_compute. reflexivity.
  - vm_compute. discriminate.
Qed.

(** The entry of [deployments] is [apps/v1beta1], the preferred
    group-version; the comparator ranks [v1beta2] above [v1beta1], and a
    fold of [apps/v1beta2] without that preferred group-version replaces
    the entry, but the fold with it keeps the entry. *)
Lemma sticky_preferred_witness :
  entry beta_cache "1.8" "deployments"
  = Some {| version := "apps/v1beta1"; namespaced := true |}
  /\ compareAPIVersions "v1beta1" "v1beta2" = Return (-1)%Z
  /\ entry (mapGroupResources "1.8" apps_v1beta2 None beta_cache).1
           "1.8" "deployments"
     = Some {| version := "apps/v1beta2"; namespaced := true |}
  /\ entry (mapGroupResources "1.8" apps_v1beta2 (Some "apps/v1beta1") beta_cache).1
           "1.8" "deployments"
     = Some {| version := "apps/v1beta1"; namespaced := true |}.
Proof.
  split; [reflexivity |]. split; [reflexivity |]. split; [reflexivity |].
  apply (sticky_preferred "1.8" apps_v1beta2 "apps/v1beta1" beta_cache "deployments");
    [reflexivity | reflexivity | discriminate].
Defined.

(** C5: one request fails after the version was detected; the other
    group-versions are folded into the cache, and the promise is rejected
    with the list of errors alone. *)
Theorem partial_failure_rejects :
  demo_build.2 = Rejected (ErrorList [StatusError 503 unavailable])
  /\ entry demo_build.1 "1.8" "pods" = Some {| version := "v1"; namespaced := true |}
  /\ entry demo_build.1 "1.8" "deployments"
     = Some {| version := "apps/v1"; namespaced := true |}.
Proof. repeat split; vm_compute; reflexivity. Qed.

(** *** The orchestration *)

(** Every request appends at most one error and removes none; a request
    whose fetch fails appends one. *)
Lemma groupReq_errs net url clusterVer preferredGroupVer st :
  length st.2 <= length (groupReq net url clusterVer preferredGroupVer st).2.
Proof.
  destruct st as [a errs]. unfold groupReq.
  destruct (get_resources net url) as [data|err]; cbn [snd].
  - destruct (mapGroupResources _ _ _ a) as [a' [m|err]]; cbn [snd];
      rewrite ?length_app; simpl; lia.
  - rewrite length_app. simpl. lia.
Qed.

Lemma groupReq_fetch_fails net url clusterVer preferredGroupVer st err :
  get_resources net url = Throw err ->
  groupReq net url clusterVer preferredGroupVer st
  = (st.1, (st.2 ++ [Utils.axiosHandler err])%list).
Proof. intros H. destruct st as [a errs]. unfold groupReq. by rewrite H. Qed.

Lemma foldl_grows {A S} (f : S -> A -> S) (size : S -> nat) (bad : A -> Prop) xs :
  (forall s x, size s <= size (f s x)) ->
  (forall s x, bad x -> size s < size (f s x)) ->
  forall s, size s <= size (foldl f s xs)
            /\ (Exists bad xs -> size s < size (foldl f s xs)).
Proof.
  intros Hmono Hbad. induction xs as [|x xs IH]; intros s; cbn [foldl].
  - split; [lia |]. by intros ?%Exists_nil.
  - destruct (IH (f s x)) as [Hle Hlt]. pose proof (Hmono s x).
    split; [lia |].
    intros [Hx | Hxs]%Exists_cons.
    + pose proof (Hbad s x Hx). lia.
    + specialize (Hlt Hxs). lia.
Qed.

(** Whenever the version is detected and the group list is fetched, one
    failing group-version request is enough for [buildAPIMap] to reject
    with the list of errors. *)
Lemma buildAPIMap_rejects_on_partial_failure net kubeconfig apiMaps gitVersion apiGroups :
  getVersion net kubeconfig = Return gitVersion ->
  get_groups net (Utils.removeTrailingSlash (server kubeconfig) ++ "/apis")
  = Return apiGroups ->
  Exists (fun group =>
            Exists (fun groupVersion =>
                      exists err,
                        get_resources net
                          (Utils.removeTrailingSlash (server kubeconfig)
                           ++ "/apis/" ++ groupVersion)
                        = Throw err)
                   (versions group))
         apiGroups ->
  exists errs, errs <> []
               /\ (buildAPIMap net (Some kubeconfig) apiMaps).2
                  = Rejected (ErrorList errs).
Proof.
  intros Hv Hg Hfail. unfold buildAPIMap. rewrite Hv, Hg.
  set (base := Utils.removeTrailingSlash (server kubeconfig)) in *.
  set (clusterVer := Utils.prettifyVersion gitVersion 2).
  set (st0 := groupReq net (base ++ "/api/v1") clusterVer None (apiMaps, [])).
  assert (forall group st,
            length st.2 <= length (groupReqs net base clusterVer group st).2
            /\ (Exists (fun groupVersion =>
                          exists err, get_resources net (base ++ "/apis/" ++ groupVersion)
                                      = Throw err) (versions group) ->
                length st.2 < length (groupReqs net base clusterVer group st).2))
    as Hgroup.
  { intros group st. unfold groupReqs.
    apply (foldl_grows _ (fun st => length st.2)).
    - intros s x. apply groupReq_errs.
    - intros s x [err Herr]. rewrite (groupReq_fetch_fails _ _ _ _ _ err Herr).
      cbn [snd]. rewrite length_app. simpl. lia. }
  destruct (foldl_grows (fun st group => groupReqs net base clusterVer group st)
              (fun st => length st.2)
              (fun group => Exists (fun groupVersion =>
                 exists err, get_resources net (base ++ "/apis/" ++ groupVersion)
                             = Throw err) (versions group))
              apiGroups
              (fun s x => proj1 (Hgroup x s)) (fun s x => proj2 (Hgroup x s)) st0)
    as [_ Hlt].
  specialize (Hlt Hfail).
  destruct (foldl _ st0 apiGroups) as [a' errs]. cbn [snd] in Hlt.
  exists errs. split; [by destruct errs; [simpl in Hlt; lia |] |].
  destruct errs; [simpl in Hlt; lia | done].
Qed.

(** *** The lookup *)

Lemma truthy_nonempty (s : string) : JS.truthy (Some s) = true <-> s <> "".
Proof.
  cbn. rewrite negb_true_iff. apply String.eqb_neq.
Qed.

(** A fold that returns leaves a map under the cluster version. *)
Lemma folded_known clusterVer resourcesResp preferredGroupVer apiMaps apiMaps' m :
  mapGroupResources clusterVer resourcesResp preferredGroupVer apiMaps
  = (apiMaps', Return m) ->
  is_Some (apiMaps' !! clusterVer).
Proof.
  intros H.
  assert (apiMaps' = (mapGroupResources clusterVer resourcesResp
                        preferredGroupVer apiMaps).1) as -> by (by rewrite H).
  rewrite mapGroupResources_state.
  destruct (exec_index _ 2) as [ver|err] eqn:Hver.
  - apply (for_of_preserves (fun a => is_Some (a !! clusterVer))).
    + intros r a _. apply mapResource_keeps_cluster.
    + apply ensure_cluster_returns.
  - unfold mapGroupResources, bind, lift in H. by rewrite Hver in H.
Qed.

(** A fold for one cluster version leaves the maps of the others alone. *)
Lemma fold_other_cluster clusterVer resourcesResp preferredGroupVer apiMaps other :
  other <> clusterVer ->
  (mapGroupResources clusterVer resourcesResp preferredGroupVer apiMaps).1 !! other
  = apiMaps !! other.
Proof.
  intros Hne. rewrite mapGroupResources_state.
  destruct (exec_index _ 2) as [ver|err]; [| done].
  transitivity ((ensure_cluster clusterVer apiMaps).1 !! other).
  - apply (for_of_preserves
             (fun a => a !! other = (ensure_cluster clusterVer apiMaps).1 !! other));
      [| done].
    intros r a _ <-. rewrite mapResource_action.
    destruct (sub_resource (name r)); [done |].
    destruct (decide_action _ _ _ _); [done | done |].
    unfold put, write_entry. cbn [fst]. by rewrite lookup_insert_ne.
  - unfold ensure_cluster. destruct (apiMaps !! clusterVer); cbn [fst]; [done |].
    by rewrite lookup_insert_ne.
Qed.

(** C6: on a cluster version that was folded, the lookup of the empty
    resource type returns [undefined], and the lookup of ["constructor"],
    which is neither a key nor, with an [s], a key of the map, returns the
    function every object inherits under that name: in both cases not the
    whole map.  On the cluster version ["__proto__"], which was never
    folded, the lookup returns [Object.prototype], not [undefined]. *)
Theorem lookup_misses_whole_map :
  core_cache !! "1.8" = Some core_map
  /\ core_map !! "" = None /\ core_map !! "s" = None
  /\ getGroupInfo core_cache "1.8" "" = None
  /\ core_map !! "constructor" = None /\ core_map !! "constructors" = None
  /\ getGroupInfo core_cache "1.8" "constructor" = Some (Builtin "constructor")
  /\ core_cache !! "__proto__" = None
  /\ getGroupInfo core_cache "__proto__" "pod" = Some ObjectPrototype.
Proof. repeat split; vm_compute; reflexivity. Qed.

(** *** utils.js *)

(** What [url.substr(0, url.length - 1)] computes: the string without its
    last code unit. *)
Lemma substr_drops_last (s : string) (a : ascii) :
  JS.last_char s = Some a ->
  JS.substr s 0 (String.length s - 1) ++ String a "" = s.
Proof.
  unfold JS.last_char, JS.substr.
  induction s as [|c t IH]; [done |].
  cbn [String.length]. rewrite Nat.sub_succ, Nat.sub_0_r.
  destruct t as [|d t'].
  - cbn. by intros [= ->].
  - cbn [String.length String.get String.substring] in *.
    rewrite Nat.sub_succ, Nat.sub_0_r in IH.
    intros Hget. rewrite string_app_cons. f_equal. by apply IH.
Qed.

(** C10: [removeTrailingSlash] returns its argument, whatever it is.  On a
    URL that ends in [/] the value of [url.substr(0, url.length - 1)] is the
    URL without that slash, and it is dropped: the result still ends in
    [/]. *)
Theorem removeTrailingSlash_unchanged (url : string) :
  Utils.removeTrailingSlash url = url
  /\ (JS.last_char url = Some "/"%char ->
      JS.last_char (Utils.removeTrailingSlash url) = Some "/"%char
      /\ JS.substr url 0 (String.length url - 1) ++ "/" = url
      /\ JS.substr url 0 (String.length url - 1) <> Utils.removeTrailingSlash url).
Proof.
  split; [reflexivity |].
  intros Hlast. split; [exact Hlast |].
  pose proof (substr_drops_last url "/" Hlast) as Hdrop.
  split; [exact Hdrop |].
  unfold Utils.removeTrailingSlash. intros Heq.
  apply (f_equal String.length) in Hdrop.
  rewrite string_length_app, Heq in Hdrop. simpl in Hdrop. lia.
Qed.

Lemma removeTrailingSlash_unchanged_witness :
  Utils.removeTrailingSlash "https://k8s.example:6443/" = "https://k8s.example:6443/"
  /\ JS.substr "https://k8s.example:6443/" 0 24 ++ "/" = "https://k8s.example:6443/".
Proof.
  destruct (removeTrailingSlash_unchanged "https://k8s.example:6443/") as [Hsame Hslash].
  split; [exact Hsame |].
  exact (proj1 (proj2 (Hslash eq_refl))).
Defined.

End Scenarios.

(** * Further properties *)

Import Grammar Cache Version ClientSpec Cases.

(** ** The grammar of [extractVerRegex] *)

Section RegexInversion.

Lemma first_some_inv {A} (a b : option A) (z : A) :
  first_some a b = Some z -> a = Some z \/ (a = None /\ b = Some z).
Proof. destruct a; simpl; intros H; [left | right]; done. Qed.

Lemma greedy_inv p c s i cs z :
  greedy p c s i cs = Some z ->
  exists r tail, s = r ++ tail /\ all_chars p r = true
                 /\ c (MState tail (i + String.length r) cs) = Some z.
Proof.
  revert i. induction s as [|a t IH]; intros i; simpl.
  - intros H. exists "", "". by rewrite Nat.add_0_r.
  - destruct (p a) eqn:Ha.
    + intros [H | [_ H]]%first_some_inv.
      * destruct (IH _ H) as (r & tail & -> & Hr & Hc).
        exists (String a r), tail. simpl. rewrite Ha, Hr.
        by rewrite Nat.add_succ_r.
      * exists "", (String a t). by rewrite Nat.add_0_r.
    + intros H. exists "", (String a t). by rewrite Nat.add_0_r.
Qed.

Lemma run_plus_class_inv p s i cs c z :
  run (Plus (Class p)) (MState s i cs) c = Some z ->
  exists r tail, s = r ++ tail /\ run_of p r = true
                 /\ c (MState tail (i + String.length r) cs) = Some z.
Proof.
  rewrite run_plus_class. destruct s as [|a t]; [done |].
  destruct (p a) eqn:Ha; [| done].
  intros (r & tail & -> & Hr & Hc)%greedy_inv.
  exists (String a r), tail. unfold run_of. simpl. rewrite Ha, Hr.
  by rewrite Nat.add_succ_r.
Qed.

Lemma run_class_inv p s i cs c z :
  run (Class p) (MState s i cs) c = Some z ->
  exists a t, s = String a t /\ p a = true /\ c (MState t (S i) cs) = Some z.
Proof.
  simpl. destruct s as [|a t]; [done |]. destruct (p a) eqn:Ha; [| done].
  intros H. by exists a, t.
Qed.

Lemma substring_full (s : string) : String.substring 0 (String.length s) s = s.
Proof. rewrite <- (string_app_empty_r s) at 2. apply substring_prefix. Qed.

Lemma string_app_assoc (a b c : string) : (a ++ b) ++ c = a ++ (b ++ c).
Proof. induction a as [|x a IH]; [done | by rewrite !string_app_cons, IH]. Qed.

Lemma extractVerRegex_parts : extractVerRegex = Cat (Cat (Cat Bol (Opt G1)) G2) Eol.
Proof. reflexivity. Qed.

Lemma run_eol_inv x z : run Eol x Some = Some z -> rest x = "" /\ z = x.
Proof. simpl. destruct (rest x); [by intros [= <-] | done]. Qed.

Lemma opt_G3_inv s i cs c z :
  run (Opt G3) (MState s i cs) c = Some z ->
  (exists l n tail cs',
      s = l ++ n ++ tail /\ run_of is_lower l = true /\ run_of is_digit n = true
      /\ c (MState tail (i + String.length l + String.length n) cs') = Some z)
  \/ c (MState s i cs) = Some z.
Proof.
  rewrite run_opt. intros [H | [_ H]]%first_some_inv; [left | by right].
  unfold G3 in H. rewrite run_group, run_cat in H. unfold lower, digit in H.
  unfold clear in H. cbn [rest pos caps] in H.
  apply run_plus_class_inv in H as (l & tail1 & -> & Hl & H).
  apply run_plus_class_inv in H as (n & tail & -> & Hn & H).
  cbn [pos] in H.
  assert (String.length l <> 0%nat) as Hlen.
  { apply andb_prop in Hl as [Hne _]. by destruct l. }
  unfold capture in H. cbn [rest pos caps] in H.
  rewrite (proj2 (Nat.eqb_neq _ _)) in H by lia.
  eexists l, n, tail, _. split; [done |]. split; [done |]. split; [done |].
  exact H.
Qed.

Lemma G2_inv s i cs z :
  run G2 (MState s i cs) (fun y => run Eol y Some) = Some z ->
  exists t, version_token t = true /\ s = render t /\ caps z !! 2%nat = Some s.
Proof.
  unfold G2. rewrite run_group, !run_cat. unfold lit, digit.
  intros (a & t1 & -> & Ha & H)%run_class_inv.
  apply Ascii.eqb_eq in Ha as <-.
  apply run_plus_class_inv in H as (D & t2 & -> & HD & H).
  apply opt_G3_inv in H as [(l & n & tail & cs' & -> & Hl & Hn & H) | H].
  - apply run_eol_inv in H as [Htail ->]. cbn [capture rest pos caps] in *. subst tail.
    exists {| letters := "v"; major := D; minor := Some (l, n) |}.
    split; [| split].
    + unfold version_token, well_formed, is_lower, is_digit in *.
      cbn [letters major minor]. by rewrite HD, Hl, Hn.
    + unfold render. cbn [letters major minor]. by rewrite string_app_empty_r.
    + rewrite lookup_insert_eq. f_equal.
      match goal with |- String.substring 0 ?N ?s = _ =>
        replace N with (String.length s); [apply substring_full |] end.
      cbn [String.length]. rewrite !string_length_app. simpl. lia.
  - apply run_eol_inv in H as [Htail ->]. cbn [capture rest pos caps] in *. subst t2.
    exists {| letters := "v"; major := D; minor := None |}.
    split; [| split].
    + unfold version_token, well_formed, is_lower, is_digit in *.
      cbn [letters major minor]. by rewrite HD.
    + done.
    + rewrite lookup_insert_eq. f_equal.
      match goal with |- String.substring 0 ?N ?s = _ =>
        replace N with (String.length s); [apply substring_full |] end.
      cbn [String.length]. rewrite !string_length_app. simpl. lia.
Qed.

Lemma run_plus_class_max p r tail i cs c z :
  run_of p r = true -> stops p tail ->
  c (MState tail (i + String.length r) cs) = Some z ->
  run (Plus (Class p)) (MState (r ++ tail) i cs) c = Some z.
Proof.
  intros [Hne Hall]%andb_prop Hstop Hc.
  destruct r as [|a r]; [by simpl in Hne |].
  simpl in Hall. apply andb_prop in Hall as [Ha Hall].
  rewrite string_app_cons, run_plus_class, Ha.
  apply greedy_max; [done | done |].
  rewrite <- Hc. do 2 f_equal. simpl. lia.
Qed.

Lemma run_lit a t i cs c :
  run (lit a) (MState (String a t) i cs) c = c (MState t (S i) cs).
Proof. cbn [run lit rest pos caps]. by rewrite Ascii.eqb_refl. Qed.

Lemma run_bol x c : run Bol x c = if (pos x =? 0)%nat then c x else None.
Proof. reflexivity. Qed.

Lemma run_of_nonempty p r : run_of p r = true -> String.length r <> 0%nat.
Proof. intros [Hne _]%andb_prop. by destruct r. Qed.

Lemma G2_complete t i cs :
  version_token t = true ->
  exists z, run G2 (MState (render t) i cs) (fun y => run Eol y Some) = Some z
            /\ caps z !! 2%nat = Some (render t).
Proof.
  destruct t as [L D mi]. unfold version_token, well_formed, render.
  cbn [letters major minor].
  intros [[[HL HD]%andb_prop Hmi]%andb_prop ->%String.eqb_eq]%andb_prop.
  destruct mi as [[l n]|].
  - apply andb_prop in Hmi as [Hl Hn].
    pose proof (run_of_nonempty _ _ Hl) as Hlen.
    eexists. split.
    + unfold G2. rewrite run_group, !run_cat.
      change ("v" ++ D ++ l ++ n) with (String "v" (D ++ l ++ n)).
      rewrite run_lit. unfold digit.
      apply run_plus_class_max; [exact HD | |].
      { apply (stops_run is_lower); [apply lower_not_digit | done]. }
      rewrite run_opt. unfold G3 at 1. rewrite run_group, run_cat.
      unfold clear. cbn [rest pos caps]. unfold lower, digit.
      erewrite run_plus_class_max; [reflexivity | exact Hl | |].
      { rewrite <- (string_app_empty_r n).
        apply (stops_run is_digit); [apply digit_not_lower | done]. }
      rewrite <- (string_app_empty_r n) at 1.
      apply run_plus_class_max; [exact Hn | done |].
      unfold capture. cbn [rest pos caps].
      rewrite (proj2 (Nat.eqb_neq _ _)) by lia.
      reflexivity.
    + cbn [caps]. rewrite lookup_insert_eq. f_equal.
      match goal with |- String.substring 0 ?N ?s = _ =>
        replace N with (String.length s); [apply substring_full |] end.
      change ("v" ++ D ++ l ++ n) with (String "v" (D ++ l ++ n)).
      cbn [String.length]. rewrite !string_length_app. lia.
  - eexists. split.
    + unfold G2. rewrite run_group, !run_cat.
      change ("v" ++ D ++ "") with (String "v" (D ++ "")).
      rewrite run_lit. unfold digit.
      apply run_plus_class_max; [exact HD | done |].
      rewrite run_opt. unfold G3 at 1. rewrite run_group, run_cat.
      unfold clear. cbn [rest pos caps]. unfold lower.
      rewrite run_plus_class. cbn [first_some].
      reflexivity.
    + cbn [caps capture]. rewrite lookup_insert_eq. f_equal.
      cbn [rest pos].
      match goal with |- String.substring 0 ?N ?s = _ =>
        replace N with (String.length s); [apply substring_full |] end.
      change ("v" ++ D ++ "") with (String "v" (D ++ "")).
      cbn [String.length]. rewrite !string_length_app. simpl. lia.
Qed.

Lemma all_chars_app p a b :
  all_chars p (a ++ b) = all_chars p a && all_chars p b.
Proof.
  induction a as [|c a IH]; [done |].
  rewrite string_app_cons. simpl. by rewrite IH, andb_assoc.
Qed.

Lemma all_chars_impl (p q : ascii -> bool) s :
  (forall a, p a = true -> q a = true) ->
  all_chars p s = true -> all_chars q s = true.
Proof.
  intros Hpq. induction s as [|c s IH]; [done |]. simpl.
  intros [Hc Hs]%andb_prop. by rewrite (Hpq c Hc), IH.
Qed.

Lemma lower_not_slash a : is_lower a = true -> not_slash a = true.
Proof.
  unfold not_slash. destruct (Ascii.eqb_spec "/" a) as [<-|]; [| done].
  by vm_compute.
Qed.

Lemma digit_not_slash a : is_digit a = true -> not_slash a = true.
Proof.
  unfold not_slash. destruct (Ascii.eqb_spec "/" a) as [<-|]; [| done].
  by vm_compute.
Qed.

Lemma run_of_all p r : run_of p r = true -> all_chars p r = true.
Proof. by intros [_ H]%andb_prop. Qed.

(** The version part has no [/]. *)
Lemma version_token_no_slash t :
  version_token t = true -> all_chars not_slash (render t) = true.
Proof.
  destruct t as [L D mi]. unfold version_token, well_formed, render.
  cbn [letters major minor].
  intros [[[HL HD]%andb_prop Hmi]%andb_prop _]%andb_prop.
  rewrite !all_chars_app.
  rewrite (all_chars_impl _ _ _ lower_not_slash (run_of_all _ _ HL)).
  rewrite (all_chars_impl _ _ _ digit_not_slash (run_of_all _ _ HD)).
  destruct mi as [[l n]|]; [| done].
  apply andb_prop in Hmi as [Hl Hn]. rewrite all_chars_app.
  rewrite (all_chars_impl _ _ _ lower_not_slash (run_of_all _ _ Hl)).
  by rewrite (all_chars_impl _ _ _ digit_not_slash (run_of_all _ _ Hn)).
Qed.

Lemma exec_from_extractVerRegex_later s i :
  i <> 0%nat -> exec_from extractVerRegex s i = None.
Proof.
  revert i. induction s as [|a s IH]; intros i Hi; cbn [exec_from];
    rewrite extractVerRegex_parts, !run_cat, run_bol; cbn [pos];
    rewrite (proj2 (Nat.eqb_neq _ _) Hi); [done |].
  by apply IH.
Qed.

Lemma exec_extractVerRegex s :
  exec extractVerRegex s
  = match run extractVerRegex (MState s 0 ∅) Some with
    | Some y => Some (<[0%nat := String.substring 0 (pos y - 0) s]> (caps y))
    | None => None
    end.
Proof.
  unfold exec. destruct s as [|a s]; cbn [exec_from];
    destruct (run extractVerRegex _ Some); try done.
  by apply exec_from_extractVerRegex_later.
Qed.

(** The first alternative of [([^/]+\/)?]: a slash-free, non-empty group
    and a [/], then the version. *)
Lemma G1_inv s cs z :
  run G1 (clear (groups G1) (MState s 0 cs))
      (fun y => if (pos y =? 0)%nat then None
                else run G2 y (fun y' => run Eol y' Some)) = Some z ->
  exists g v, run_of not_slash g = true /\ s = g ++ "/" ++ v
              /\ (exists t, version_token t = true /\ v = render t)
              /\ caps z !! 2%nat = Some v.
Proof.
  unfold G1. rewrite run_group, run_cat. unfold clear, not_char, lit.
  cbn [rest pos caps].
  intros (g & tail & -> & Hg & H)%run_plus_class_inv.
  apply run_class_inv in H as (a & v & -> & Ha & H).
  apply Ascii.eqb_eq in Ha as <-.
  unfold capture in H. cbn [rest pos caps] in H.
  rewrite (proj2 (Nat.eqb_neq _ _)) in H by lia.
  apply G2_inv in H as (t & Ht & -> & Hz).
  exists g, (render t). split; [exact Hg |]. split; [done |]. split; [by exists t | done].
Qed.

Lemma exec_extractVerRegex_inv s m :
  exec extractVerRegex s = Some m ->
  exists v, m !! 2%nat = Some v /\ group_version_of s v.
Proof.
  rewrite exec_extractVerRegex.
  destruct (run extractVerRegex _ Some) as [y|] eqn:Hrun; [| done].
  intros [= <-]. rewrite lookup_insert_ne by done.
  rewrite extractVerRegex_parts, !run_cat, run_bol in Hrun. cbn [pos Nat.eqb] in Hrun.
  rewrite run_opt in Hrun.
  apply first_some_inv in Hrun as [H | [_ H]].
  - apply G1_inv in H as (g & v & Hg & -> & Ht & Hz).
    exists v. split; [done |]. split; [done |]. right. by exists g.
  - apply G2_inv in H as (t & Ht & -> & Hz).
    exists (render t). split; [done |]. split; [by exists t | by left].
Qed.

(** X1: a string that [extractVerRegex] matches is a group-version of the
    grammar, and group 2 is its version token: the string is the token, or
    a non-empty group without [/], a [/] and the token. *)
Theorem extractVerRegex_sound s m :
  exec extractVerRegex s = Some m ->
  exists v, m !! 2%nat = Some v /\ group_version_of s v.
Proof. apply exec_extractVerRegex_inv. Qed.

Lemma extractVerRegex_sound_witness :
  exists m v, exec extractVerRegex "apps/v1beta1" = Some m
              /\ m !! 2%nat = Some v /\ group_version_of "apps/v1beta1" v.
Proof.
  destruct (exec extractVerRegex "apps/v1beta1") as [m|] eqn:Hm;
    [| by vm_compute in Hm].
  destruct (extractVerRegex_sound "apps/v1beta1" m Hm) as (v & Hv & Hgv).
  by exists m, v.
Defined.

(** X2: every group-version of the grammar is matched by
    [extractVerRegex], and group 2 is its version token. *)
Theorem extractVerRegex_complete s v :
  group_version_of s v ->
  exists m, exec extractVerRegex s = Some m /\ m !! 2%nat = Some v.
Proof.
  intros [(t & Ht & ->) Hs]. rewrite exec_extractVerRegex.
  rewrite extractVerRegex_parts, !run_cat, run_bol. cbn [pos Nat.eqb].
  rewrite run_opt.
  destruct Hs as [-> | (g & Hg & ->)].
  - destruct (run G1 _ _) as [z|] eqn:HA.
    + exfalso. apply G1_inv in HA as (g & v & Hg & Heq & _ & _).
      pose proof (version_token_no_slash t Ht) as Hns.
      rewrite Heq, !all_chars_app in Hns. simpl in Hns.
      rewrite andb_false_r in Hns. discriminate.
    + cbn [first_some].
      destruct (G2_complete t 0 ∅ Ht) as (z & Hz & Hcap).
      rewrite Hz. eexists. split; [reflexivity |].
      by rewrite lookup_insert_ne.
  - destruct (G2_complete t (0 + String.length g + 1)
                (<[1%nat := g ++ "/"]> (delete 1%nat ∅)) Ht) as (z & Hz & Hcap).
    match goal with |- context [first_some ?A _] =>
      assert (A = Some z) as -> end.
    { unfold G1. rewrite run_group, run_cat. unfold clear, not_char.
      cbn [rest pos caps groups foldr app].
      apply run_plus_class_max; [exact Hg | by simpl |].
      change ("/" ++ render t) with (String "/" (render t)).
      rewrite run_lit. unfold capture. cbn [rest pos caps].
      rewrite (proj2 (Nat.eqb_neq _ _)) by lia.
      rewrite <- Hz. do 3 f_equal; [lia |].
      f_equal.
      replace (S (0 + String.length g) - 0)%nat with (String.length (g ++ "/")).
      - change (String "/" (render t)) with ("/" ++ render t).
        rewrite <- string_app_assoc. apply substring_prefix.
      - rewrite string_length_app. simpl. lia. }
    cbn [first_some]. eexists. split; [reflexivity |].
    by rewrite lookup_insert_ne.
Qed.

Lemma extractVerRegex_complete_witness :
  exists m, exec extractVerRegex "apps/v1beta1" = Some m
            /\ m !! 2%nat = Some "v1beta1".
Proof.
  apply (extractVerRegex_complete "apps/v1beta1" "v1beta1").
  split; [by exists v1beta1 | right; by exists "apps"].
Defined.

End RegexInversion.

(** ** The comparator on swapped arguments *)

Section ComparatorMore.

Lemma string_ltb_asym (a b : string) : String.ltb a b = true -> String.ltb b a = false.
Proof.
  unfold String.ltb. rewrite (String.compare_antisym b a).
  by destruct (String.compare a b).
Qed.

Lemma js_lt_asym (x y : option string) : JS.lt x y = true -> JS.lt y x = false.
Proof. destruct x, y; try done. apply string_ltb_asym. Qed.

Lemma labels_exclusive (l1 l2 : option string) :
  JS.strict_eq l1 (Some "beta") && JS.strict_eq l2 (Some "alpha") = true ->
  JS.strict_eq l1 (Some "alpha") && JS.strict_eq l2 (Some "beta") = false.
Proof.
  intros [H1 _]%andb_prop. destruct l1 as [l1|]; [| done].
  cbn in H1. apply String.eqb_eq in H1 as ->. done.
Qed.

(** X3: when the comparator returns on two versions, it returns the
    opposite number on the same versions swapped. *)
Theorem compareAPIVersions_antisym (ver1 ver2 : string) (c : Z) :
  compareAPIVersions ver1 ver2 = Return c ->
  compareAPIVersions ver2 ver1 = Return (- c)%Z.
Proof.
  unfold compareAPIVersions.
  destruct (exec verRegex ver1) as [m1|]; [| done].
  destruct (exec verRegex ver2) as [m2|]; [| done].
  cbn [exec_index obind]. unfold JS.gt.
  set (M1 := m1 !! 2%nat). set (M2 := m2 !! 2%nat).
  set (L1 := m1 !! 3%nat). set (L2 := m2 !! 3%nat).
  set (N1 := m1 !! 4%nat). set (N2 := m2 !! 4%nat).
  pose proof (js_lt_asym M1 M2) as HM12. pose proof (js_lt_asym M2 M1) as HM21.
  pose proof (js_lt_asym N1 N2) as HN12. pose proof (js_lt_asym N2 N1) as HN21.
  pose proof (labels_exclusive L1 L2) as HL.
  rewrite (andb_comm (JS.strict_eq L2 (Some "beta"))).
  rewrite (andb_comm (JS.strict_eq L2 (Some "alpha"))).
  destruct (JS.lt M2 M1), (JS.lt M1 M2);
    try (specialize (HM21 eq_refl)); try (specialize (HM12 eq_refl)); try discriminate;
    try (by intros [= <-]).
  destruct (JS.strict_eq L1 (Some "beta") && JS.strict_eq L2 (Some "alpha")),
           (JS.strict_eq L1 (Some "alpha") && JS.strict_eq L2 (Some "beta"));
    try (specialize (HL eq_refl)); try discriminate; try (by intros [= <-]).
  destruct (JS.lt N2 N1), (JS.lt N1 N2);
    try (specialize (HN21 eq_refl)); try (specialize (HN12 eq_refl)); try discriminate;
    by intros [= <-].
Qed.

Lemma compareAPIVersions_antisym_witness :
  compareAPIVersions "v1alpha2" "v1beta1" = Return (- 1)%Z.
Proof. exact (compareAPIVersions_antisym "v1beta1" "v1alpha2" 1 eq_refl). Defined.

End ComparatorMore.

(** ** When a fold returns *)

Section FoldInvariant.

Lemma cache_ok_empty : cache_ok ∅.
Proof. intros cv k e H. unfold entry in H. by rewrite lookup_empty in H. Qed.

Lemma parses_version groupVer :
  parses groupVer ->
  exists t, version_token t = true
            /\ exec_index (exec extractVerRegex groupVer) 2 = Return (Some (render t)).
Proof.
  intros [m Hm]. destruct (exec_extractVerRegex_inv _ _ Hm) as (v & Hv & (t & Ht & ->) & _).
  exists t. split; [done |]. by rewrite Hm; cbn; rewrite Hv.
Qed.



Lemma entry_put_other clusterVer groupVer resource apiMaps other k :
  other <> clusterVer ->
  entry (put clusterVer groupVer resource apiMaps) other k = entry apiMaps other k.
Proof.
  intros Hne. unfold entry, put, write_entry. cbn [fst].
  by rewrite lookup_insert_ne.
Qed.

Lemma cache_ok_put clusterVer groupVer resource apiMaps :
  cache_ok apiMaps -> parses groupVer ->
  cache_ok (put clusterVer groupVer resource apiMaps).
Proof.
  intros Hok Hgv cv k e.
  destruct (decide (cv = clusterVer)) as [->|Hcv];
    [| by rewrite entry_put_other; [apply Hok |]].
  destruct (decide (k = name resource)) as [->|Hk].
  - rewrite entry_put_eq. by intros [= <-].
  - rewrite entry_put_ne by done. apply Hok.
Qed.



(** Whatever an iteration does, it leaves the stored group-versions
    parsing. *)
Lemma mapResource_cache_ok clusterVer groupVer ver preferredGroupVer r apiMaps :
  cache_ok apiMaps -> parses groupVer ->
  cache_ok (mapResource clusterVer groupVer ver preferredGroupVer r apiMaps).1.
Proof.
  intros Hok Hgv. rewrite mapResource_action.
  destruct (sub_resource (name r)); [done |].
  destruct (decide_action _ _ _ _); [done | done | by apply cache_ok_put].
Qed.

Lemma cache_ok_ensure clusterVer apiMaps :
  cache_ok apiMaps -> cache_ok (ensure_cluster clusterVer apiMaps).1.
Proof.
  intros Hok cv k e. unfold ensure_cluster.
  destruct (apiMaps !! clusterVer) eqn:Hm; cbn [fst]; [apply Hok |].
  unfold entry. destruct (decide (cv = clusterVer)) as [->|Hne].
  - by rewrite lookup_insert_eq.
  - rewrite lookup_insert_ne by done. apply Hok.
Qed.

Lemma fold_cache_ok clusterVer resourcesResp preferredGroupVer apiMaps :
  cache_ok apiMaps ->
  cache_ok (mapGroupResources clusterVer resourcesResp preferredGroupVer apiMaps).1.
Proof.
  intros Hok. rewrite mapGroupResources_state.
  destruct (exec_index _ 2) as [ver|err] eqn:Hver; [| done].
  assert (parses (groupVersion resourcesResp)) as Hgv.
  { unfold parses. destruct (exec extractVerRegex _); [eauto | done]. }
  apply (for_of_preserves cache_ok); [| by apply cache_ok_ensure].
  intros r a _ Ha. by apply mapResource_cache_ok.
Qed.





End FoldInvariant.

(** ** What a fold writes *)

Section FoldEffects.

Lemma mapResource_entry_cases clusterVer groupVer ver preferredGroupVer r apiMaps k :
  let apiMaps' := (mapResource clusterVer groupVer ver preferredGroupVer r apiMaps).1 in
  entry apiMaps' clusterVer k = entry apiMaps clusterVer k
  \/ (name r = k /\ sub_resource k = false
      /\ entry apiMaps' clusterVer k
         = Some {| version := groupVer; namespaced := resource_namespaced r |}).
Proof.
  cbn zeta. rewrite mapResource_action.
  destruct (sub_resource (name r)) eqn:Hsub; [by left |].
  destruct (decide_action _ _ _ _); [by left | by left |]. cbn [fst].
  destruct (decide (k = name r)) as [->|Hk].
  - right. by rewrite entry_put_eq.
  - left. by apply entry_put_ne.
Qed.

Lemma fold_entry_inv clusterVer resourcesResp preferredGroupVer apiMaps k :
  let apiMaps' :=
    (mapGroupResources clusterVer resourcesResp preferredGroupVer apiMaps).1 in
  entry apiMaps' clusterVer k = entry apiMaps clusterVer k
  \/ (exists e, entry apiMaps' clusterVer k = Some e /\ written_by resourcesResp k e).
Proof.
  cbn zeta. rewrite mapGroupResources_state.
  destruct (exec_index _ 2) as [ver|err]; [| by left].
  rewrite <- (ensure_cluster_entry clusterVer apiMaps k).
  set (a0 := (ensure_cluster clusterVer apiMaps).1).
  apply (for_of_preserves
           (fun a => entry a clusterVer k = entry a0 clusterVer k
                     \/ exists e, entry a clusterVer k = Some e
                                  /\ written_by resourcesResp k e));
    [| by left].
  intros r a Hr Ha.
  destruct (mapResource_entry_cases clusterVer (groupVersion resourcesResp) ver
              preferredGroupVer r a k) as [-> | (Hn & Hsub & ->)]; [done |].
  right. eexists. split; [done |]. by exists r.
Qed.

(** X5: what a fold does to one entry of its cluster version: it leaves it
    as it is, or it writes the group-version of the response with the flag
    of a descriptor of that name that is not a sub-resource. *)
Theorem fold_entry_cases clusterVer resourcesResp preferredGroupVer apiMaps k :
  let apiMaps' :=
    (mapGroupResources clusterVer resourcesResp preferredGroupVer apiMaps).1 in
  entry apiMaps' clusterVer k = entry apiMaps clusterVer k
  \/ (exists e, entry apiMaps' clusterVer k = Some e /\ written_by resourcesResp k e).
Proof. apply fold_entry_inv. Qed.

(** A fold never removes an entry. *)
Corollary fold_keeps_entries clusterVer resourcesResp preferredGroupVer apiMaps k :
  is_Some (entry apiMaps clusterVer k) ->
  is_Some (entry (mapGroupResources clusterVer resourcesResp preferredGroupVer
                    apiMaps).1 clusterVer k).
Proof.
  intros He.
  destruct (fold_entry_inv clusterVer resourcesResp preferredGroupVer apiMaps k)
    as [-> | (e & -> & _)]; eauto.
Qed.

Lemma mapResource_keeps_entry clusterVer groupVer ver preferredGroupVer r apiMaps k :
  is_Some (entry apiMaps clusterVer k) ->
  is_Some (entry (mapResource clusterVer groupVer ver preferredGroupVer r apiMaps).1
                 clusterVer k).
Proof.
  intros He.
  destruct (mapResource_entry_cases clusterVer groupVer ver preferredGroupVer r apiMaps k)
    as [-> | (_ & _ & ->)]; eauto.
Qed.

Lemma mapResource_returns_entry clusterVer groupVer ver preferredGroupVer r a a' :
  mapResource clusterVer groupVer ver preferredGroupVer r a = (a', Return tt) ->
  sub_resource (name r) = false ->
  is_Some (entry a' clusterVer (name r)).
Proof.
  rewrite mapResource_action. intros H Hsub. rewrite Hsub in H.
  unfold decide_action in H.
  destruct (entry a clusterVer (name r)) as [e|] eqn:He.
  - assert (is_Some (entry a clusterVer (name r))) as Hs by (rewrite He; eauto).
    destruct (exec_index _ 2); [| done].
    destruct (_ && _ && _); [by injection H as <- |].
    destruct (negb _); [injection H as <-; rewrite entry_put_eq; eauto |].
    destruct (compareAPIVersions _ _) as [c|]; [| done].
    destruct (c <? 0)%Z; injection H as <-; [rewrite entry_put_eq; eauto | done].
  - destruct (JS.inherited (name r)); [done |].
    injection H as <-. rewrite entry_put_eq. eauto.
Qed.

Lemma for_of_covers clusterVer groupVer ver preferredGroupVer rs a a' :
  for_of rs (mapResource clusterVer groupVer ver preferredGroupVer) a = (a', Return tt) ->
  forall r, r ∈ rs -> sub_resource (name r) = false ->
  is_Some (entry a' clusterVer (name r)).
Proof.
  revert a. induction rs as [|x rs IH]; intros a H r Hr Hsub;
    [by apply elem_of_nil in Hr |].
  rewrite for_of_cons in H.
  destruct (mapResource _ _ _ _ x a) as [a1 [[]|e]] eqn:Hx; [| done].
  apply elem_of_cons in Hr as [-> | Hr]; [| by eapply IH].
  pose proof (mapResource_returns_entry _ _ _ _ _ _ _ Hx Hsub) as Hs.
  replace a' with (for_of rs (mapResource clusterVer groupVer ver preferredGroupVer) a1).1
    by (by rewrite H).
  apply (for_of_preserves (fun a => is_Some (entry a clusterVer (name x)))); [| done].
  intros y b _. apply mapResource_keeps_entry.
Qed.

Lemma fold_covers clusterVer resourcesResp preferredGroupVer apiMaps apiMaps' m r :
  mapGroupResources clusterVer resourcesResp preferredGroupVer apiMaps
  = (apiMaps', Return m) ->
  r ∈ resources resourcesResp -> sub_resource (name r) = false ->
  is_Some (entry apiMaps' clusterVer (name r)).
Proof.
  intros H Hr Hsub.
  unfold mapGroupResources, bind, lift in H.
  destruct (exec_index _ 2) as [ver|]; [| done].
  destruct (ensure_cluster clusterVer apiMaps) as [a1 [[]|]]; [| done].
  destruct (for_of _ _ a1) as [a2 [[]|]] eqn:Hfor; [| done].
  injection H as <- _. by eapply for_of_covers.
Qed.



End FoldEffects.

(** ** The lookup and the case of the resource type *)

Section LookupMore.

Lemma char_between_spec lo hi c :
  JS.char_between lo hi c = true
  <-> (nat_of_ascii lo <= nat_of_ascii c <= nat_of_ascii hi)%nat.
Proof. unfold JS.char_between. rewrite andb_true_iff, !Nat.leb_le. done. Qed.

Lemma lower_char_not_upper (c : ascii) :
  JS.char_between "A" "Z" (JS.lower_char c) = false.
Proof.
  unfold JS.lower_char.
  destruct (JS.char_between "A" "Z" c) eqn:Hc; [| done].
  apply char_between_spec in Hc.
  change (nat_of_ascii "A") with 65%nat in Hc.
  change (nat_of_ascii "Z") with 90%nat in Hc.
  apply not_true_iff_false. rewrite char_between_spec.
  rewrite nat_ascii_embedding by lia.
  change (nat_of_ascii "A") with 65%nat. change (nat_of_ascii "Z") with 90%nat. lia.
Qed.

Lemma lower_char_idem (c : ascii) : JS.lower_char (JS.lower_char c) = JS.lower_char c.
Proof.
  pose proof (lower_char_not_upper c) as H.
  generalize dependent (JS.lower_char c). intros d H.
  unfold JS.lower_char. by rewrite H.
Qed.

Lemma toLowerCase_idem (s : string) : JS.toLowerCase (JS.toLowerCase s) = JS.toLowerCase s.
Proof. induction s as [|c s IH]; [done |]. simpl. by rewrite lower_char_idem, IH. Qed.

Lemma toLowerCase_empty (s : string) : JS.toLowerCase s = "" <-> s = "".
Proof. by destruct s. Qed.

(** X7: the lookup does not see the case of the resource type. *)
Theorem getGroupInfo_case_insensitive apiMaps clusterVersion resourceType resourceType' :
  JS.toLowerCase resourceType = JS.toLowerCase resourceType' ->
  getGroupInfo apiMaps clusterVersion resourceType
  = getGroupInfo apiMaps clusterVersion resourceType'.
Proof.
  intros Heq. unfold getGroupInfo. rewrite Heq.
  destruct (negb (JS.truthy (Some clusterVersion))); [done |].
  assert (JS.truthy (Some resourceType) = JS.truthy (Some resourceType')) as ->; [| done].
  destruct resourceType, resourceType'; try done; simpl in Heq; discriminate.
Qed.

Lemma getGroupInfo_case_insensitive_witness :
  getGroupInfo core_cache "1.8" "Pods" = getGroupInfo core_cache "1.8" "PODS".
Proof. exact (getGroupInfo_case_insensitive core_cache "1.8" "Pods" "PODS" eq_refl). Defined.

End LookupMore.

(** ** How [buildAPIMap] settles *)

Section Orchestration.

Lemma getVersion_error net kubeconfig e :
  getVersion net kubeconfig = Throw e -> exists status cause, e = StatusError status cause.
Proof.
  unfold getVersion. destruct (get_version net _) as [v|err]; [done |].
  intros [= <-]. unfold Utils.axiosHandler.
  destruct err as [|[[status text]|]| |]; eauto.
Qed.

(** An error that [axiosHandler] built carries no response: handling it
    again gives status 500. *)
Lemma axiosHandler_twice err :
  Utils.axiosHandler (Utils.axiosHandler err) = StatusError 500 (Utils.axiosHandler err).
Proof. by destruct err as [|[[status text]|]| |]. Qed.

(** X8: when the version request fails, [buildAPIMap] rejects with
    status 500, whatever the status of the failure (the error goes through
    [axiosHandler] twice), and the cache is untouched. *)
Theorem buildAPIMap_version_failure net kubeconfig apiMaps e :
  getVersion net kubeconfig = Throw e ->
  buildAPIMap net (Some kubeconfig) apiMaps
  = (apiMaps, Rejected (OneError (StatusError 500 e))).
Proof.
  intros H. unfold buildAPIMap. rewrite H.
  destruct (getVersion_error _ _ _ H) as (status & cause & ->). done.
Qed.

Lemma buildAPIMap_version_failure_witness :
  buildAPIMap closed_cluster (Some demo_kubeconfig) core_cache
  = (core_cache, Rejected (OneError (StatusError 500 (StatusError 401 unauthorized)))).
Proof.
  exact (buildAPIMap_version_failure closed_cluster demo_kubeconfig core_cache
           (StatusError 401 unauthorized) eq_refl).
Defined.

(** Entries are never removed, in any cluster version. *)
Lemma fold_keeps_entries_any clusterVer resourcesResp preferredGroupVer apiMaps cv k :
  is_Some (entry apiMaps cv k) ->
  is_Some (entry (mapGroupResources clusterVer resourcesResp preferredGroupVer
                    apiMaps).1 cv k).
Proof.
  destruct (decide (cv = clusterVer)) as [->|Hne]; [apply fold_keeps_entries |].
  unfold entry. by rewrite fold_other_cluster.
Qed.

Lemma groupReq_cache net url clusterVer preferredGroupVer st :
  (groupReq net url clusterVer preferredGroupVer st).1
  = match get_resources net url with
    | Return data => (mapGroupResources clusterVer data preferredGroupVer st.1).1
    | Throw _ => st.1
    end.
Proof.
  destruct st as [a errs]. unfold groupReq. cbn [fst].
  destruct (get_resources net url) as [data|err]; [| done].
  by destruct (mapGroupResources _ _ _ a) as [a' [m|err]].
Qed.

(** A property of the cache that every fold preserves holds after
    [buildAPIMap], however it settles. *)
Lemma buildAPIMap_preserves (P : ApiMaps -> Prop) net kubeconfig apiMaps :
  (forall clusterVer data preferredGroupVer a,
      P a -> P (mapGroupResources clusterVer data preferredGroupVer a).1) ->
  P apiMaps -> P (buildAPIMap net kubeconfig apiMaps).1.
Proof.
  intros Hfold HP.
  assert (forall url clusterVer pref st, P st.1 -> P (groupReq net url clusterVer pref st).1)
    as Hreq.
  { intros url clusterVer pref st Hst. rewrite groupReq_cache.
    destruct (get_resources net url); [by apply Hfold | done]. }
  unfold buildAPIMap. destruct kubeconfig as [kubeconfig|]; [| done].
  destruct (getVersion net kubeconfig) as [gitVersion|]; [| done].
  set (clusterVer := Utils.prettifyVersion gitVersion 2).
  set (base := Utils.removeTrailingSlash (server kubeconfig)).
  set (st0 := groupReq net (base ++ "/api/v1") clusterVer None (apiMaps, [])).
  assert (P st0.1) as H0 by (by apply Hreq).
  destruct (get_groups net (base ++ "/apis")) as [apiGroups|]; [| done].
  assert (P (foldl (fun st group => groupReqs net base clusterVer group st)
                   st0 apiGroups).1) as Hend.
  { generalize st0 H0. induction apiGroups as [|g gs IH]; intros st Hst; [done |].
    cbn [foldl]. apply IH. unfold groupReqs.
    generalize st Hst. induction (versions g) as [|v vs IHv]; intros st' Hst'; [done |].
    cbn [foldl]. apply IHv. by apply Hreq. }
  destruct (foldl _ st0 apiGroups) as [a' errs]. cbn [fst] in Hend.
  by destruct (0 <? length errs)%nat.
Qed.

Lemma buildAPIMap_cache_ok net kubeconfig apiMaps :
  cache_ok apiMaps -> cache_ok (buildAPIMap net kubeconfig apiMaps).1.
Proof.
  intros Hok. apply (buildAPIMap_preserves cache_ok); [| done].
  intros clusterVer data pref a. apply fold_cache_ok.
Qed.

(** X9: [buildAPIMap] never removes an entry from the cache, however it
    settles, and stored group-versions that all parse still do
    afterwards. *)
Theorem buildAPIMap_cache_grows net kubeconfig apiMaps :
  (forall cv k, is_Some (entry apiMaps cv k) ->
                is_Some (entry (buildAPIMap net kubeconfig apiMaps).1 cv k))
  /\ (cache_ok apiMaps -> cache_ok (buildAPIMap net kubeconfig apiMaps).1).
Proof.
  split; [| apply buildAPIMap_cache_ok].
  intros cv k He.
  apply (buildAPIMap_preserves (fun a => is_Some (entry a cv k))); [| done].
  intros clusterVer data pref a. apply fold_keeps_entries_any.
Qed.

Lemma fold_keeps_cluster clusterVer resourcesResp preferredGroupVer apiMaps cv :
  is_Some (apiMaps !! cv) ->
  is_Some ((mapGroupResources clusterVer resourcesResp preferredGroupVer apiMaps).1 !! cv).
Proof.
  intros Hs. destruct (decide (cv = clusterVer)) as [->|Hne];
    [| by rewrite fold_other_cluster].
  rewrite mapGroupResources_state.
  destruct (exec_index _ 2) as [ver|]; [| done].
  apply (for_of_preserves (fun a => is_Some (a !! clusterVer))).
  - intros r a _. apply mapResource_keeps_cluster.
  - apply ensure_cluster_returns.
Qed.

Lemma foldl_keep {A S} (f : S -> A -> S) (Q : S -> Prop) xs :
  (forall s y, Q s -> Q (f s y)) -> forall s, Q s -> Q (foldl f s xs).
Proof.
  intros Hf. induction xs as [|x xs IH]; intros s Hs; [done |].
  cbn [foldl]. by apply IH, Hf.
Qed.

Lemma foldl_establish {A S} (f : S -> A -> S) (R : A -> S -> Prop) xs :
  (forall s x, R x (f s x)) -> (forall s x y, R x s -> R x (f s y)) ->
  forall s x, x ∈ xs -> R x (foldl f s xs).
Proof.
  intros Hest Hkeep. induction xs as [|y xs IH]; intros s x Hx;
    [by apply elem_of_nil in Hx |].
  cbn [foldl]. apply elem_of_cons in Hx as [-> | Hx]; [| by apply IH].
  apply (foldl_keep f (R y)); [| by apply Hest].
  intros s' z. apply Hkeep.
Qed.

Section Requests.
Variables (net : Cluster) (clusterVer : string).

Lemma groupReq_no_error url pref st :
  (groupReq net url clusterVer pref st).2 = [] ->
  st.2 = []
  /\ exists data m, get_resources net url = Return data
                    /\ mapGroupResources clusterVer data pref st.1
                       = ((groupReq net url clusterVer pref st).1, Return m).
Proof.
  destruct st as [a errs]. unfold groupReq. cbn [fst snd].
  destruct (get_resources net url) as [data|err]; cbn [snd].
  - destruct (mapGroupResources clusterVer data pref a) as [a' [m|err]] eqn:Hf;
      cbn [fst snd].
    + intros ->. split; [done |]. by exists data, m.
    + intros H. destruct errs; discriminate H.
  - intros H. destruct errs; discriminate H.
Qed.

Lemma groupReq_answers url pref st :
  answered net clusterVer url (groupReq net url clusterVer pref st).
Proof.
  intros (_ & data & m & Hget & Hfold)%groupReq_no_error.
  exists data. split; [done |]. split; [by eapply folded_known |].
  intros r Hr Hsub.
  by apply (fold_covers _ _ _ _ _ _ r Hfold Hr Hsub).
Qed.

Lemma groupReq_keeps_answered url url' pref st :
  answered net clusterVer url st ->
  answered net clusterVer url (groupReq net url' clusterVer pref st).
Proof.
  intros Hans Hnil.
  pose proof (groupReq_no_error _ _ _ Hnil) as [Hnil0 _].
  destruct (Hans Hnil0) as (data & Hget & Hkey & Hall).
  exists data. split; [done |]. rewrite groupReq_cache.
  destruct (get_resources net url'); [| done].
  split; [by apply fold_keeps_cluster |]. intros r Hr Hsub.
  by apply fold_keeps_entries_any, Hall.
Qed.

Lemma groupReqs_keeps_answered base url group st :
  answered net clusterVer url st ->
  answered net clusterVer url (groupReqs net base clusterVer group st).
Proof.
  unfold groupReqs. apply (foldl_keep _ (answered net clusterVer url)).
  intros s gv. apply groupReq_keeps_answered.
Qed.

Lemma groupReqs_answers base group st gv :
  gv ∈ versions group ->
  answered net clusterVer (base ++ "/apis/" ++ gv) (groupReqs net base clusterVer group st).
Proof.
  unfold groupReqs.
  apply (foldl_establish _ (fun gv st => answered net clusterVer (base ++ "/apis/" ++ gv) st)).
  - intros s x. apply groupReq_answers.
  - intros s x y. apply groupReq_keeps_answered.
Qed.

End Requests.

Lemma buildAPIMap_fulfilled_inv net kubeconfig apiMaps apiMaps' v :
  buildAPIMap net kubeconfig apiMaps = (apiMaps', Fulfilled v) ->
  exists kc gitVersion apiGroups m,
    kubeconfig = Some kc
    /\ getVersion net kc = Return gitVersion
    /\ get_groups net (Utils.removeTrailingSlash (server kc) ++ "/apis")
       = Return apiGroups
    /\ v = Some m
    /\ apiMaps' !! Utils.prettifyVersion gitVersion 2 = Some m
    /\ forall url,
         url = Utils.removeTrailingSlash (server kc) ++ "/api/v1"
         \/ (exists group gv, group ∈ apiGroups /\ gv ∈ versions group
               /\ url = Utils.removeTrailingSlash (server kc) ++ "/apis/" ++ gv) ->
         exists data,
           get_resources net url = Return data
           /\ forall r, r ∈ resources data -> sub_resource (name r) = false ->
                exists e, m !! name r = Some e.
Proof.
  unfold buildAPIMap. destruct kubeconfig as [kc|]; [| done].
  destruct (getVersion net kc) as [gitVersion|] eqn:Hv; [| done].
  set (clusterVer := Utils.prettifyVersion gitVersion 2).
  set (base := Utils.removeTrailingSlash (server kc)).
  set (st0 := groupReq net (base ++ "/api/v1") clusterVer None (apiMaps, [])).
  destruct (get_groups net (base ++ "/apis")) as [apiGroups|] eqn:Hg; [| done].
  set (f := fun st group => groupReqs net base clusterVer group st).
  pose proof (foldl_keep f (answered net clusterVer (base ++ "/api/v1")) apiGroups
                (fun s g => groupReqs_keeps_answered net clusterVer base _ g s)
                st0 (groupReq_answers net clusterVer _ None _)) as Hcore.
  pose proof (foldl_establish f
                (fun group st => forall gv, gv ∈ versions group ->
                                 answered net clusterVer (base ++ "/apis/" ++ gv) st)
                apiGroups
                (fun s g gv Hgv => groupReqs_answers net clusterVer base g s gv Hgv)
                (fun s g g' H gv Hgv =>
                   groupReqs_keeps_answered net clusterVer base _ g' s (H gv Hgv))
                st0) as Hgroups.
  destruct (foldl f st0 apiGroups) as [a' errs].
  destruct errs as [|e errs]; [| done]. cbn [length Nat.ltb Nat.leb].
  intros [= <- <-].
  destruct (Hcore eq_refl) as (data0 & Hget0 & [m Hm] & Hall0). cbn [fst] in *.
  exists kc, gitVersion, apiGroups, m.
  repeat (split; [done |]).
  intros url [-> | (group & gv & Hgr & Hgv & ->)].
  - exists data0. split; [done |]. intros r Hr Hsub.
    destruct (Hall0 r Hr Hsub) as [e He]. exists e.
    unfold entry in He. by rewrite Hm in He.
  - destruct (Hgroups group Hgr gv Hgv eq_refl) as (data & Hget & _ & Hall).
    exists data. split; [done |]. intros r Hr Hsub.
    destruct (Hall r Hr Hsub) as [e He]. exists e.
    unfold entry in He. cbn [fst] in He. by rewrite Hm in He.
Qed.

(** X10: when the promise of [buildAPIMap] is fulfilled, the version
    request, the group list and every resource request were answered, the
    value is the map of the cluster version, and the resource of every
    answer that is not a sub-resource has an entry in that map. *)
Theorem buildAPIMap_fulfilled net kubeconfig apiMaps apiMaps' v :
  buildAPIMap net kubeconfig apiMaps = (apiMaps', Fulfilled v) ->
  exists kc gitVersion apiGroups m,
    kubeconfig = Some kc
    /\ getVersion net kc = Return gitVersion
    /\ get_groups net (Utils.removeTrailingSlash (server kc) ++ "/apis")
       = Return apiGroups
    /\ v = Some m
    /\ apiMaps' !! Utils.prettifyVersion gitVersion 2 = Some m
    /\ forall url,
         url = Utils.removeTrailingSlash (server kc) ++ "/api/v1"
         \/ (exists group gv, group ∈ apiGroups /\ gv ∈ versions group
               /\ url = Utils.removeTrailingSlash (server kc) ++ "/apis/" ++ gv) ->
         exists data,
           get_resources net url = Return data
           /\ forall r, r ∈ resources data -> sub_resource (name r) = false ->
                exists e, m !! name r = Some e.
Proof. apply buildAPIMap_fulfilled_inv. Qed.

Lemma buildAPIMap_fulfilled_witness :
  exists m, (buildAPIMap healthy_cluster (Some demo_kubeconfig) ∅).2 = Fulfilled (Some m)
            /\ is_Some (m !! "pods") /\ is_Some (m !! "deployments").
Proof.
  destruct (buildAPIMap healthy_cluster (Some demo_kubeconfig) ∅) as [apiMaps' [v|r]]
    eqn:Hbuild; [| by vm_compute in Hbuild].
  destruct (buildAPIMap_fulfilled healthy_cluster (Some demo_kubeconfig) ∅ apiMaps' v Hbuild)
    as (kc & gitVersion & apiGroups & m & [= <-] & _ & Hgroups & -> & _ & Hall).
  exists m. split; [done |].
  injection Hgroups as <-.
  split.
  - destruct (Hall "https://k8s.example:6443/api/v1" (or_introl eq_refl))
      as (data & [= <-] & Hdata).
    apply (Hdata pods); [by left | done].
  - destruct (Hall "https://k8s.example:6443/apis/apps/v1") as (data & [= <-] & Hdata).
    { right. eexists _, "apps/v1". split; [by left |]. split; [by left | done]. }
    apply (Hdata deployments); [by left | done].
Defined.

End Orchestration.

(** ** [prettifyVersion] *)

Section Prettify.

Lemma concat_cons x xs : String.concat "." (x :: xs) = x ++ dotted xs.
Proof.
  revert x. induction xs as [|y xs IH]; intros x.
  - simpl. by rewrite string_app_empty_r.
  - change (String.concat "." (x :: y :: xs)) with (x ++ "." ++ String.concat "." (y :: xs)).
    by rewrite IH.
Qed.

Lemma prettify_loop_later i precision versionArr pretty :
  (0 < i)%nat ->
  Utils.prettify_loop i precision versionArr pretty
  = pretty ++ dotted (take (precision - i) versionArr).
Proof.
  revert i pretty. induction versionArr as [|x xs IH]; intros i pretty Hi.
  - simpl. by rewrite take_nil, string_app_empty_r.
  - cbn [Utils.prettify_loop].
    destruct (Nat.ltb_spec i precision) as [Hlt|Hge].
    + rewrite IH by lia. rewrite (proj2 (Nat.ltb_lt 0 i) Hi).
      replace (precision - i)%nat with (S (precision - S i)) by lia.
      cbn [take dotted]. by rewrite !string_app_assoc.
    + replace (precision - i)%nat with 0%nat by lia.
      simpl. by rewrite string_app_empty_r.
Qed.

Lemma prettify_loop_join precision versionArr :
  Utils.prettify_loop 0 precision versionArr "" = String.concat "." (take precision versionArr).
Proof.
  destruct versionArr as [|x xs]; [by rewrite take_nil |].
  cbn [Utils.prettify_loop].
  destruct precision as [|p]; [done |].
  cbn [Nat.ltb Nat.leb take]. rewrite prettify_loop_later by lia.
  rewrite concat_cons. cbn [Nat.sub]. rewrite Nat.sub_0_r. done.
Qed.

Lemma split_cons sep c t :
  Utils.split sep (String c t)
  = if Ascii.eqb c sep then "" :: Utils.split sep t
    else match Utils.split sep t with
         | h :: r => String c h :: r
         | [] => [String c ""]
         end.
Proof. reflexivity. Qed.

Lemma split_not_nil sep s : Utils.split sep s <> [].
Proof.
  induction s as [|c t IH]; [done |]. rewrite split_cons.
  destruct (Ascii.eqb c sep); [done |]. by destruct (Utils.split sep t).
Qed.

Lemma split_app a b :
  all_chars not_dot a = true ->
  Utils.split "." (a ++ String "." b) = a :: Utils.split "." b.
Proof.
  induction a as [|c a IH]; intros Ha.
  - done.
  - simpl in Ha. apply andb_prop in Ha as [Hc Ha].
    rewrite string_app_cons, split_cons, (IH Ha).
    unfold not_dot in Hc. apply negb_true_iff in Hc. by rewrite Hc.
Qed.

Lemma split_no_dot a : all_chars not_dot a = true -> Utils.split "." a = [a].
Proof.
  induction a as [|c a IH]; intros Ha; [done |].
  simpl in Ha. apply andb_prop in Ha as [Hc Ha].
  rewrite split_cons, (IH Ha).
  unfold not_dot in Hc. apply negb_true_iff in Hc. by rewrite Hc.
Qed.

Lemma split_join x xs :
  Forall (fun c => all_chars not_dot c = true) (x :: xs) ->
  Utils.split "." (String.concat "." (x :: xs)) = x :: xs.
Proof.
  revert x. induction xs as [|y xs IH]; intros x Hall.
  - apply split_no_dot. by inversion Hall.
  - change (String.concat "." (x :: y :: xs)) with (x ++ String "." (String.concat "." (y :: xs))).
    inversion Hall as [|? ? Hx Hrest]; subst.
    by rewrite split_app, IH.
Qed.

Lemma split_dot_free s : Forall (fun c => all_chars not_dot c = true) (Utils.split "." s).
Proof.
  induction s as [|c t IH]; [by repeat constructor |].
  rewrite split_cons. destruct (Ascii.eqb c ".") eqn:Hc; [by constructor |].
  destruct (Utils.split "." t) as [|h r] eqn:Hs; [by destruct (split_not_nil _ _ Hs) |].
  inversion IH; subst. constructor; [| done].
  simpl. unfold not_dot at 1. by rewrite Hc.
Qed.

Lemma prettifyVersion_join verStr precision :
  Utils.prettifyVersion verStr precision
  = String.concat "."
      (take (if (precision =? 0)%nat then 3%nat else precision)
            (strip_v (Utils.split "." verStr))).
Proof.
  unfold Utils.prettifyVersion. rewrite prettify_loop_join. f_equal. f_equal.
  destruct (Utils.split "." verStr) as [|[|c t] r]; try done.
  unfold strip_v, JS.substr.
  destruct (Ascii.eqb_spec c "v") as [->|Hc].
  - cbn [String.substring]. by rewrite substring_full.
  - by destruct c as [[] [] [] [] [] [] [] []].
Qed.

(** X11: a version made of the components [c], [cs] (without dots): one
    leading ['v'] is dropped and the first [precision] components are
    kept, three when no precision is given. *)
Theorem prettifyVersion_components (c : string) (cs : list string) (precision : nat)
    (verStr : string) :
  Forall (fun c => all_chars not_dot c = true) (c :: cs) ->
  verStr = String.concat "." (("v" ++ c) :: cs)
  \/ (starts_with_v c = false /\ verStr = String.concat "." (c :: cs)) ->
  Utils.prettifyVersion verStr precision
  = String.concat "." (take (if (precision =? 0)%nat then 3%nat else precision) (c :: cs)).
Proof.
  intros Hall Hver. rewrite prettifyVersion_join. f_equal. f_equal.
  destruct Hver as [-> | [Hv ->]].
  - rewrite split_join; [done |].
    inversion Hall; subst. by constructor.
  - rewrite split_join by done.
    destruct c as [|a t]; [done |]. unfold strip_v.
    destruct (Ascii.eqb_spec a "v") as [->|Ha]; [done |].
    by destruct a as [[] [] [] [] [] [] [] []].
Qed.

Lemma prettifyVersion_components_witness :
  Utils.prettifyVersion "v1.8.3+coreos" 2 = "1.8".
Proof.
  apply (prettifyVersion_components "1" ["8"; "3+coreos"] 2 "v1.8.3+coreos").
  - by repeat constructor.
  - by left.
Defined.

Lemma all_chars_tail p c t : all_chars p (String c t) = true -> all_chars p t = true.
Proof. simpl. by intros [_ H]%andb_prop. Qed.

Lemma strip_v_dot_free xs :
  Forall (fun c => all_chars not_dot c = true) xs ->
  Forall (fun c => all_chars not_dot c = true) (strip_v xs).
Proof.
  destruct xs as [|[|c t] r]; try done. unfold strip_v.
  destruct (Ascii.eqb_spec c "v") as [->|Hc].
  - intros H. inversion H; subst. constructor; [by eapply all_chars_tail | done].
  - by destruct c as [[] [] [] [] [] [] [] []].
Qed.

Lemma strip_v_not_nil xs : xs <> [] -> strip_v xs <> [].
Proof.
  destruct xs as [|[|c t] r]; try done. unfold strip_v. intros _.
  destruct (Ascii.eqb_spec c "v") as [->|Hc]; [done |].
  by destruct c as [[] [] [] [] [] [] [] []].
Qed.

Lemma strip_v_id x xs : starts_with_v x = false -> strip_v (x :: xs) = x :: xs.
Proof.
  destruct x as [|c t]; [done |]. unfold strip_v, starts_with_v.
  destruct (Ascii.eqb_spec c "v") as [->|Hc]; [done |].
  by destruct c as [[] [] [] [] [] [] [] []].
Qed.

Lemma starts_with_v_app x y : x <> "" -> starts_with_v (x ++ y) = starts_with_v x.
Proof. destruct x as [|c t]; [done |]. intros _. by rewrite string_app_cons. Qed.

Lemma starts_with_v_dotted xs : starts_with_v (dotted xs) = false.
Proof. by destruct xs. Qed.

(** The components of a prettified version: the kept ones, never more than
    the precision (three when none is given). *)
Lemma prettifyVersion_split verStr precision :
  Utils.split "." (Utils.prettifyVersion verStr precision)
  = take (if (precision =? 0)%nat then 3%nat else precision)
         (strip_v (Utils.split "." verStr)).
Proof.
  rewrite prettifyVersion_join.
  set (p := if (precision =? 0)%nat then 3%nat else precision).
  assert (0 < p)%nat as Hp by (unfold p; destruct precision; simpl; lia).
  pose proof (strip_v_dot_free _ (split_dot_free verStr)) as Hfree.
  pose proof (strip_v_not_nil _ (split_not_nil "." verStr)) as Hne.
  destruct (strip_v (Utils.split "." verStr)) as [|x xs]; [done |].
  destruct p as [|p']; [lia |]. cbn [take].
  apply split_join. inversion Hfree; subst. constructor; [done |].
  by apply Forall_take.
Qed.

(** X12: a prettified version has at most [precision] components, at
    most three when no precision is given. *)
Theorem prettifyVersion_bound verStr precision :
  (length (Utils.split "." (Utils.prettifyVersion verStr precision))
   <= if (precision =? 0)%nat then 3 else precision)%nat.
Proof. rewrite prettifyVersion_split, length_take. lia. Qed.

(** X13: prettifying again at the same precision changes nothing,
    unless the result still starts with ['v']. *)
Theorem prettifyVersion_idempotent verStr precision :
  starts_with_v (Utils.prettifyVersion verStr precision) = false ->
  Utils.prettifyVersion (Utils.prettifyVersion verStr precision) precision
  = Utils.prettifyVersion verStr precision.
Proof.
  intros Hv.
  rewrite (prettifyVersion_join (Utils.prettifyVersion verStr precision)).
  rewrite prettifyVersion_split.
  rewrite prettifyVersion_join in Hv |- *.
  set (p := if (precision =? 0)%nat then 3%nat else precision) in *.
  assert (0 < p)%nat as Hp by (unfold p; destruct precision; simpl; lia).
  pose proof (strip_v_not_nil _ (split_not_nil "." verStr)) as Hne.
  destruct (strip_v (Utils.split "." verStr)) as [|x xs]; [done |].
  destruct p as [|p']; [lia |]. cbn [take] in *.
  rewrite concat_cons in Hv.
  assert (starts_with_v x = false) as Hx.
  { destruct x as [|c t]; [done |]. by rewrite starts_with_v_app in Hv. }
  rewrite (strip_v_id _ _ Hx). cbn [take]. by rewrite take_take, Nat.min_id.
Qed.

Lemma prettifyVersion_idempotent_witness :
  Utils.prettifyVersion (Utils.prettifyVersion "v1.8.3" 2) 2
  = Utils.prettifyVersion "v1.8.3" 2.
Proof. exact (prettifyVersion_idempotent "v1.8.3" 2 eq_refl). Defined.

End Prettify.

(** ** [extractCurrentContext] *)

Section ClientFacts.
Import Client.

Lemma first_named_Some {A} (name_of : A -> string) wanted cs c :
  first_named name_of wanted cs = Some c ->
  exists before after,
    cs = (before ++ c :: after)%list /\ name_of c = wanted
    /\ Forall (fun c' => name_of c' <> wanted) before.
Proof.
  induction cs as [|x cs IH]; [done |]. simpl.
  destruct (String.eqb_spec (name_of x) wanted) as [Hx|Hx].
  - intros [= <-]. by exists [], cs.
  - intros (before & after & -> & Hc & Hb)%IH.
    exists (x :: before), after. by repeat constructor.
Qed.

Lemma first_named_None {A} (name_of : A -> string) wanted cs :
  first_named name_of wanted cs = None <-> Forall (fun c => name_of c <> wanted) cs.
Proof.
  induction cs as [|x cs IH]; [by split |]. simpl.
  destruct (String.eqb_spec (name_of x) wanted) as [Hx|Hx].
  - split; [done |]. by intros [? _]%Forall_cons.
  - rewrite IH. split; [by constructor | by intros [_ ?]%Forall_cons].
Qed.

(** X14: what [extractCurrentContext] returns is the first context that
    bears the name of the current context, the first cluster that bears the
    name this context gives, and the first user likewise. *)
Theorem extractCurrentContext_sound kubeconfigFile r :
  extractCurrentContext (Some kubeconfigFile) = Some r ->
  exists n, current_context kubeconfigFile = Some n /\ n <> ""
    /\ (exists before after,
          contexts kubeconfigFile = (before ++ current r :: after)%list
          /\ context_name (current r) = n
          /\ Forall (fun c => context_name c <> n) before)
    /\ (exists before after,
          clusters kubeconfigFile = (before ++ cluster r :: after)%list
          /\ cluster_name (cluster r) = context_cluster (context (current r))
          /\ Forall (fun c => cluster_name c <> context_cluster (context (current r)))
                    before)
    /\ (exists before after,
          users kubeconfigFile = (before ++ user r :: after)%list
          /\ user_name (user r) = context_user (context (current r))
          /\ Forall (fun u => user_name u <> context_user (context (current r)))
                    before).
Proof.
  unfold extractCurrentContext.
  destruct (current_context kubeconfigFile) as [n|] eqn:Hn; [| done].
  destruct (negb (JS.truthy (Some n))) eqn:Ht; [done |].
  apply negb_false_iff, truthy_nonempty in Ht. cbn [JS.to_string].
  destruct (first_named context_name n _) as [c|] eqn:Hc; [| done].
  destruct (first_named cluster_name _ _) as [cl|] eqn:Hcl; [| done].
  destruct (first_named user_name _ _) as [u|] eqn:Hu; [| done].
  intros [= <-]. cbn [cluster current user].
  exists n. split; [done |]. split; [done |].
  split; [by apply first_named_Some |].
  split; by apply first_named_Some.
Qed.

Lemma extractCurrentContext_sound_witness :
  exists n, current_context kubeconfig_file = Some n /\ n <> ""
    /\ (exists before after,
          contexts kubeconfig_file = (before ++ dev_context :: after)%list
          /\ context_name dev_context = n
          /\ Forall (fun c => context_name c <> n) before)
    /\ (exists before after,
          clusters kubeconfig_file = (before ++ local :: after)%list
          /\ cluster_name local = "local"
          /\ Forall (fun c => cluster_name c <> "local") before)
    /\ (exists before after,
          users kubeconfig_file = (before ++ {| user_name := "me" |} :: after)%list
          /\ user_name {| user_name := "me" |} = "me"
          /\ Forall (fun u => user_name u <> "me") before).
Proof. exact (extractCurrentContext_sound kubeconfig_file dev eq_refl). Defined.

(** X15: [extractCurrentContext] returns [undefined] exactly when there
    is no current context, no context of that name, or the first context
    of that name names a cluster or a user that is not there. *)
Theorem extractCurrentContext_undefined kubeconfigFile :
  extractCurrentContext (Some kubeconfigFile) = None <->
  current_context kubeconfigFile = None \/ current_context kubeconfigFile = Some ""
  \/ exists n, current_context kubeconfigFile = Some n
       /\ (Forall (fun c => context_name c <> n) (contexts kubeconfigFile)
           \/ exists before c after,
                contexts kubeconfigFile = (before ++ c :: after)%list
                /\ context_name c = n
                /\ Forall (fun c' => context_name c' <> n) before
                /\ (Forall (fun cl => cluster_name cl <> context_cluster (context c))
                           (clusters kubeconfigFile)
                    \/ Forall (fun u => user_name u <> context_user (context c))
                              (users kubeconfigFile))).
Proof.
  unfold extractCurrentContext.
  destruct (current_context kubeconfigFile) as [n|] eqn:Hn; [| by split; [left |]].
  destruct (negb (JS.truthy (Some n))) eqn:Ht.
  { apply negb_true_iff in Ht. cbn in Ht. apply negb_false_iff, String.eqb_eq in Ht.
    subst n. split; [by right; left | done]. }
  apply negb_false_iff, truthy_nonempty in Ht. cbn [JS.to_string].
  destruct (first_named context_name n _) as [c|] eqn:Hc.
  - pose proof (first_named_Some _ _ _ _ Hc) as (before & after & Hcs & Hname & Hbefore).
    assert (forall before' c' after',
               contexts kubeconfigFile = (before' ++ c' :: after')%list ->
               context_name c' = n ->
               Forall (fun c'' => context_name c'' <> n) before' -> c' = c) as Hfirst.
    { intros before' c' after' Hcs' Hname' Hbefore'.
      rewrite Hcs' in Hc. clear Hcs Hcs'.
      induction before' as [|x xs IH]; simpl in Hc.
      - rewrite Hname', String.eqb_refl in Hc. by injection Hc.
      - apply Forall_cons in Hbefore' as [Hx Hxs].
        apply String.eqb_neq in Hx. rewrite Hx in Hc. by apply IH. }
    destruct (first_named cluster_name _ _) as [cl|] eqn:Hcl.
    + destruct (first_named user_name _ _) as [u|] eqn:Hu.
      * split; [done |].
        intros [? | [? | (n' & Hn' & Hcase)]]; [done | congruence |].
        injection Hn' as <-.
        destruct Hcase as [Hno | (b' & c' & a' & Hcs' & Hname' & Hb' & Hmiss)].
        { apply first_named_None in Hno. congruence. }
        rewrite (Hfirst _ _ _ Hcs' Hname' Hb') in Hmiss.
        destruct Hmiss as [H | H]; apply first_named_None in H; congruence.
      * split; [intros _ | done]. right; right. exists n. split; [done |]. right.
        exists before, c, after. repeat (split; [done |]). right.
        by apply first_named_None.
    + split; [intros _ | done]. right; right. exists n. split; [done |]. right.
      exists before, c, after. repeat (split; [done |]). left.
      by apply first_named_None.
  - split; [intros _ | done]. right; right. exists n. split; [done |]. left.
    by apply first_named_None.
Qed.

End ClientFacts.

(** ** The status code of a failed [loadSpec] *)

Section StatusCode.
Import Client.

Lemma spaces_inv s i cs c z :
  run (Opt (Plus (lit " "))) (MState s i cs) c = Some z ->
  exists sp tail, s = sp ++ tail /\ all_chars is_space sp = true
                  /\ c (MState tail (i + String.length sp) cs) = Some z.
Proof.
  rewrite run_opt. intros [H | [_ H]]%first_some_inv.
  - unfold clear in H. cbn [groups rest pos caps foldr lit] in H.
    apply run_plus_class_inv in H as (sp & tail & -> & [_ Hsp]%andb_prop & H).
    cbn [pos] in H. destruct (_ =? _)%nat; [done |].
    by exists sp, tail.
  - exists "", s. by rewrite Nat.add_0_r.
Qed.

Lemma rx_inv s i y :
  run rx (MState s i ∅) Some = Some y ->
  exists sp d, s = ":" ++ sp ++ d /\ all_chars is_space sp = true
               /\ three_digits d = true /\ caps y !! 2%nat = Some d.
Proof.
  unfold rx. rewrite run_cat, run_group, run_cat. unfold lit at 1.
  intros (a & t & -> & Ha & H)%run_class_inv.
  apply Ascii.eqb_eq in Ha as <-.
  apply spaces_inv in H as (sp & tail & -> & Hsp & H).
  unfold capture at 1 in H. cbn [rest pos caps] in H.
  rewrite run_group, !run_cat in H. unfold digit in H.
  apply run_class_inv in H as (d1 & t1 & -> & Hd1 & H).
  apply run_class_inv in H as (d2 & t2 & -> & Hd2 & H).
  apply run_class_inv in H as (d3 & t3 & -> & Hd3 & H).
  cbn [run rest] in H. destruct t3; [| done].
  injection H as <-. exists sp, (String d1 (String d2 (String d3 ""))).
  split; [done |]. split; [done |].
  split.
  { unfold three_digits, is_digit. cbn. by rewrite Hd1, Hd2, Hd3. }
  unfold capture. cbn [rest pos caps].
  rewrite lookup_insert_eq. f_equal.
  replace (_ - _)%nat with 3%nat by lia. done.
Qed.

Lemma digit_not_space a : is_digit a = true -> is_space a = false.
Proof.
  unfold is_digit, is_space, JS.char_between.
  rewrite andb_true_iff, !Nat.leb_le.
  change (nat_of_ascii "0") with 48%nat.
  intros [H _]. apply Ascii.eqb_neq. intros <-.
  change (nat_of_ascii " ") with 32%nat in H. lia.
Qed.

Lemma run_class_cons p a t i cs c :
  run (Class p) (MState (String a t) i cs) c
  = if p a then c (MState t (S i) cs) else None.
Proof. reflexivity. Qed.

Lemma string_app_empty_l (s : string) : "" ++ s = s.
Proof. reflexivity. Qed.

Lemma rx_complete sp d i :
  all_chars is_space sp = true -> three_digits d = true ->
  is_Some (run rx (MState (String ":" (sp ++ d)) i ∅) Some).
Proof.
  intros Hsp [Hlen Hd]%andb_prop. apply Nat.eqb_eq in Hlen.
  destruct d as [|d1 [|d2 [|d3 [|]]]]; try done.
  cbn in Hd. apply andb_prop in Hd as [Hd1 [Hd2 [Hd3 _]%andb_prop]%andb_prop].
  unfold is_digit in *.
  unfold rx. rewrite run_cat, run_group, run_cat. unfold lit.
  rewrite run_class_cons, Ascii.eqb_refl.
  assert (forall cs j, is_Some
            (run (Group 2 (digit · digit · digit · Eol)%re)
                 (MState (String d1 (String d2 (String d3 ""))) j cs) Some)) as Hdigits.
  { intros cs j. rewrite run_group, !run_cat. unfold digit.
    cbn [run rest pos caps]. by rewrite Hd1, Hd2, Hd3. }
  rewrite run_opt. unfold clear. cbn [groups rest pos caps foldr].
  rewrite run_plus_class.
  change (Ascii.eqb " ") with is_space.
  destruct sp as [|a sp].
  - rewrite string_app_empty_l.
    rewrite (digit_not_space d1 Hd1). cbn [first_some].
    apply Hdigits.
  - cbn [all_chars] in Hsp. apply andb_prop in Hsp as [Ha Hsp].
    rewrite string_app_cons, Ha.
    match goal with
    | |- is_Some (first_some (greedy ?p ?c ?s ?j ?cs) ?b) =>
        destruct (Hdigits
                    (<[1%nat := String.substring 0 (j + String.length sp - i)
                                  (String ":"
                                     (String a (sp ++ String d1 (String d2 (String d3 "")))))]>
                       cs)
                    (j + String.length sp)%nat) as [z Hz];
        rewrite (greedy_max p c sp _ j cs z Hsp)
    end; [done | | ].
    + simpl. by apply digit_not_space.
    + cbn [pos]. rewrite (proj2 (Nat.eqb_neq _ _)) by lia.
      unfold capture. cbn [rest pos caps]. exact Hz.
Qed.

Lemma exec_from_inv r s i m :
  exec_from r s i = Some m ->
  exists p t y, s = p ++ t
    /\ run r (MState t (i + String.length p) ∅) Some = Some y
    /\ forall n, n <> 0%nat -> m !! n = caps y !! n.
Proof.
  revert i. induction s as [|a s IH]; intros i; cbn [exec_from].
  - destruct (run r _ Some) as [y|] eqn:Hy; [| done].
    intros [= <-]. exists "", "", y. rewrite Nat.add_0_r.
    split; [done |]. split; [done |]. intros n Hn. by rewrite lookup_insert_ne.
  - destruct (run r _ Some) as [y|] eqn:Hy.
    + intros [= <-]. exists "", (String a s), y. rewrite Nat.add_0_r.
      split; [done |]. split; [done |]. intros n Hn. by rewrite lookup_insert_ne.
    + intros (p & t & y & -> & Hrun & Hm)%IH.
      exists (String a p), t, y. split; [done |]. split; [| done].
      cbn [String.length].
      by replace (i + S (String.length p))%nat with (S i + String.length p)%nat by lia.
Qed.

Lemma exec_from_found r p t i :
  is_Some (run r (MState t (i + String.length p) ∅) Some) ->
  is_Some (exec_from r (p ++ t) i).
Proof.
  revert i. induction p as [|a p IH]; intros i H.
  - rewrite Nat.add_0_r in H. destruct H as [y Hy].
    rewrite string_app_empty_l. destruct t; cbn [exec_from]; rewrite Hy; by eexists.
  - rewrite string_app_cons. cbn [exec_from].
    destruct (run r (MState (String a _) i ∅) Some); [by eexists |].
    apply IH. cbn [String.length] in H.
    by replace (S i + String.length p)%nat with (i + S (String.length p))%nat by lia.
Qed.

Lemma exec_from_none r s i :
  (forall p t, s = p ++ t -> run r (MState t (i + String.length p) ∅) Some = None) ->
  exec_from r s i = None.
Proof.
  intros H. destruct (exec_from r s i) as [m|] eqn:Hm; [| done].
  apply exec_from_inv in Hm as (p & t & y & Hs & Hrun & _).
  by rewrite (H p t Hs) in Hrun.
Qed.

Lemma same_suffix (a b d d' : string) :
  a ++ d = b ++ d' -> String.length d = String.length d' -> d = d'.
Proof.
  revert b. induction a as [|x a IH]; intros b H Hlen.
  - rewrite string_app_empty_l in H. subst d.
    rewrite string_length_app in Hlen. by destruct b; [| simpl in Hlen; lia].
  - destruct b as [|y b].
    + rewrite string_app_empty_l in H. subst d'.
      rewrite string_app_cons in Hlen. cbn [String.length] in Hlen.
      rewrite string_length_app in Hlen. lia.
    + rewrite !string_app_cons in H. injection H as _ H. by apply IH with b.
Qed.

Lemma three_digits_numeral d : three_digits d = true -> run_of is_digit d = true.
Proof.
  intros [Hlen Hd]%andb_prop. apply Nat.eqb_eq in Hlen.
  unfold run_of. rewrite Hd. by destruct d.
Qed.

(** X16: when the message of the [loadSpec] error ends with a colon, any
    number of spaces and three digits, the status code attached is the
    number these digits spell. *)
Theorem statusCode_parsed errMsg d :
  status_suffix errMsg d ->
  statusCode errMsg = Some (Z.of_nat (numeral_value d)).
Proof.
  intros (Hd & p & sp & Hsp & ->). unfold statusCode, exec.
  destruct (exec_from_found rx p (":" ++ sp ++ d) 0) as [m Hm].
  { rewrite string_app_cons, string_app_empty_l. by apply rx_complete. }
  rewrite Hm.
  apply exec_from_inv in Hm as (p' & t & y & Hs & Hrun & Hcaps).
  apply rx_inv in Hrun as (sp' & d' & -> & Hsp' & Hd' & Hy).
  rewrite Hcaps, Hy by done.
  assert (d = d') as <-.
  { apply (same_suffix (p ++ ":" ++ sp) (p' ++ ":" ++ sp')).
    - by rewrite !string_app_assoc.
    - apply andb_prop in Hd as [Hd _], Hd' as [Hd' _].
      apply Nat.eqb_eq in Hd, Hd'. lia. }
  cbn [parseInt]. by rewrite three_digits_numeral.
Qed.

Lemma statusCode_parsed_witness :
  statusCode "Failed to get /swagger.json:  403" = Some 403%Z.
Proof.
  apply (statusCode_parsed "Failed to get /swagger.json:  403" "403").
  split; [done |]. by exists "Failed to get /swagger.json", "  ".
Defined.

(** X17: on any other message the status code attached is 500. *)
Theorem statusCode_default errMsg :
  (forall d, ~ status_suffix errMsg d) ->
  statusCode errMsg = Some 500%Z.
Proof.
  intros H. unfold statusCode, exec. rewrite exec_from_none; [done |].
  intros p t -> . destruct (run rx _ Some) as [y|] eqn:Hrun; [| done].
  apply rx_inv in Hrun as (sp & d & -> & Hsp & Hd & _).
  destruct (H d). split; [done |]. by exists p, sp.
Qed.

Lemma statusCode_default_witness : statusCode "timeout" = Some 500%Z.
Proof.
  apply (statusCode_default "timeout").
  intros d (_ & p & sp & _ & Heq).
  do 7 (destruct p as [|? p];
        [by rewrite string_app_empty_l, string_app_cons in Heq
        | rewrite string_app_cons in Heq; injection Heq as _ Heq]).
  destruct p; [by rewrite string_app_empty_l, string_app_cons in Heq |].
  by rewrite string_app_cons in Heq.
Defined.

End StatusCode.

(** ** [getKubernetesClient] and [buildChain] *)

Section ChainFacts.
Import Client.

Lemma split_free sep a :
  all_chars (fun c => negb (Ascii.eqb sep c)) a = true -> Utils.split sep a = [a].
Proof.
  induction a as [|c a IH]; intros Ha; [done |].
  cbn [all_chars] in Ha. apply andb_prop in Ha as [Hc Ha].
  rewrite split_cons, (IH Ha).
  apply negb_true_iff in Hc. rewrite Ascii.eqb_sym in Hc. by rewrite Hc.
Qed.

Lemma split_sep sep a b :
  all_chars (fun c => negb (Ascii.eqb sep c)) a = true ->
  Utils.split sep (a ++ String sep b) = a :: Utils.split sep b.
Proof.
  induction a as [|c a IH]; intros Ha.
  - rewrite string_app_empty_l, split_cons. by rewrite Ascii.eqb_refl.
  - cbn [all_chars] in Ha. apply andb_prop in Ha as [Hc Ha].
    rewrite string_app_cons, split_cons, (IH Ha).
    apply negb_true_iff in Hc. rewrite Ascii.eqb_sym in Hc. by rewrite Hc.
Qed.

Lemma version_token_nonempty t : version_token t = true -> render t <> "".
Proof.
  destruct t as [L D mi]. unfold version_token, render. cbn [letters major minor].
  intros [_ ->%String.eqb_eq]%andb_prop. done.
Qed.

Lemma client_of_group_version groupVer v :
  group_version_of groupVer v ->
  (groupVer = v /\ getKubernetesClient None (Some groupVer) = inr (Api v))
  \/ (exists g, run_of not_slash g = true /\ groupVer = g ++ "/" ++ v
                /\ getKubernetesClient None (Some groupVer) = inr (Apis g v)).
Proof.
  intros [(t & Ht & ->) [-> | (g & Hg & ->)]];
    [left | right; exists g; split; [done |]];
    (split; [done |]); unfold getKubernetesClient.
  - rewrite (proj2 (truthy_nonempty _)) by by apply version_token_nonempty.
    cbn [JS.to_string]. by rewrite split_free by by apply version_token_no_slash.
  - rewrite (proj2 (truthy_nonempty _)).
    2: { apply run_of_nonempty in Hg. destruct g; [done |]. by rewrite string_app_cons. }
    cbn [JS.to_string].
    change ("/" ++ render t) with (String "/" (render t)).
    rewrite split_sep by by apply run_of_all.
    by rewrite split_free by by apply version_token_no_slash.
Qed.

(** X18: once [loadSpec] has resolved, a group-version of the grammar
    selects [client.api[v]] when it has no group and [client.apis[g][v]]
    when it has one (never [null]). *)
Theorem getKubernetesClient_group_version groupVer v :
  group_version_of groupVer v ->
  (groupVer = v /\ getKubernetesClient None (Some groupVer) = inr (Api v))
  \/ (exists g, run_of not_slash g = true /\ groupVer = g ++ "/" ++ v
                /\ getKubernetesClient None (Some groupVer) = inr (Apis g v)).
Proof. apply client_of_group_version. Qed.

Lemma getKubernetesClient_group_version_witness :
  getKubernetesClient None (Some "apps/v1") = inr (Apis "apps" "v1").
Proof.
  destruct (getKubernetesClient_group_version "apps/v1" "v1")
    as [[Heq _] | (g & _ & Heq & Hclient)].
  - split; [| right; by exists "apps"].
    by exists {| letters := "v"; major := "1"; minor := None |}.
  - discriminate Heq.
  - done.
Defined.

Lemma inherited_member_not_entry k e : inherited_member k <> Some (Entry e).
Proof.
  unfold inherited_member.
  by destruct (String.eqb k "__proto__"), (JS.inherited k).
Qed.

Lemma prototype_member_not_entry k e : prototype_member k <> Some (Entry e).
Proof.
  unfold prototype_member.
  by destruct (String.eqb k "__proto__"), (JS.inherited k).
Qed.

Lemma getGroupInfo_entry apiMaps clusterVer resourceType e :
  getGroupInfo apiMaps clusterVer resourceType = Some (Entry e) ->
  exists k, entry apiMaps clusterVer k = Some e.
Proof.
  unfold getGroupInfo, entry.
  destruct (negb (JS.truthy (Some clusterVer))); [done |].
  destruct (negb (JS.truthy (Some resourceType))); [done |].
  destruct (apiMaps !! clusterVer) as [m|]; cbn [mbind option_bind].
  - destruct (m !! JS.toLowerCase resourceType) as [e1|] eqn:H1.
    { intros [= <-]. by exists (JS.toLowerCase resourceType). }
    destruct (inherited_member (JS.toLowerCase resourceType)) as [i|] eqn:Hi.
    { intros [= ->]. by apply inherited_member_not_entry in Hi. }
    destruct (m !! (JS.toLowerCase resourceType ++ "s")) as [e2|] eqn:H2.
    { intros [= <-]. by exists (JS.toLowerCase resourceType ++ "s"). }
    destruct (inherited_member (JS.toLowerCase resourceType ++ "s")) as [i|] eqn:Hi';
      [| done].
    intros [= ->]. by apply inherited_member_not_entry in Hi'.
  - destruct (String.eqb clusterVer "__proto__"); [| done].
    destruct (prototype_member (JS.toLowerCase resourceType)) as [i|] eqn:Hi.
    { intros [= ->]. by apply prototype_member_not_entry in Hi. }
    destruct (prototype_member (JS.toLowerCase resourceType ++ "s")) as [i|] eqn:Hi';
      [| done].
    intros [= ->]. by apply prototype_member_not_entry in Hi'.
Qed.

Lemma getGroupInfo_known apiMaps clusterVer resourceType :
  is_Some (apiMaps !! clusterVer) -> clusterVer <> "" -> resourceType <> "" ->
  is_Some (getGroupInfo apiMaps clusterVer resourceType).
Proof.
  intros [m Hm] Hc Hr. unfold getGroupInfo.
  rewrite !(proj2 (truthy_nonempty _)) by done. cbn [negb]. rewrite Hm.
  destruct (m !! JS.toLowerCase resourceType); [by eexists |].
  destruct (inherited_member (JS.toLowerCase resourceType)); [by eexists |].
  destruct (m !! (JS.toLowerCase resourceType ++ "s")); [by eexists |].
  destruct (inherited_member (JS.toLowerCase resourceType ++ "s")); by eexists.
Qed.



Lemma discovered_cache_ok net kubeconfig clusterVer resourceType apiMaps :
  cache_ok apiMaps ->
  cache_ok (discovered net kubeconfig clusterVer resourceType apiMaps).1.
Proof.
  intros Hok. unfold discovered.
  destruct (getGroupInfo apiMaps clusterVer resourceType); [done |].
  pose proof (buildAPIMap_cache_ok net kubeconfig apiMaps Hok) as H.
  by destruct (buildAPIMap net kubeconfig apiMaps) as [a [v|r]].
Qed.

(** *** The steps of the chain *)

Lemma member_inv library c key c' :
  member library c key = inr c' -> c' = Member c key.
Proof.
  unfold member.
  destruct (value library c); [done | ..];
    destruct (value library (Member c key)); by intros [= <-].
Qed.

Lemma call_inv library c arg c' :
  call library c arg = inr c' -> c' = Call c arg.
Proof.
  unfold call. destruct (value library c); try done.
  destruct (value library (Call c arg)); by intros [= <-].
Qed.

Lemma namespaces_inv library c namespace c' :
  namespaces library c namespace = inr c' -> c' = Namespaces c namespace.
Proof.
  unfold namespaces. destruct (member library c "namespaces") as [err|method]; [done |].
  destruct (value library method); try done.
  destruct (value library (Namespaces c namespace)); by intros [= <-].
Qed.

(** The steps after the client was obtained: the cache is not touched,
    and a chain that resolves has this shape. *)
Lemma chain_shape library defaultNamespace namespace resourceType resourceName info
    client (apiMaps : ApiMaps) :
  let result :=
    match
      if info_namespaced info && negb (JS.strict_eq namespace (Some "all"))
      then namespaces library (Root client)
             (if negb (JS.truthy namespace) then defaultNamespace
              else JS.to_string namespace)
      else inr (Root client)
    with
    | inl err => (apiMaps, inl err)
    | inr reqChain =>
        match member library reqChain resourceType with
        | inl err => (apiMaps, inl err)
        | inr reqChain =>
            if JS.truthy resourceName
            then (apiMaps, call library reqChain (JS.to_string resourceName))
            else (apiMaps, inr reqChain)
        end
    end in
  result.1 = apiMaps
  /\ (forall err, result.2 = inl err -> forall status message,
        err <> NoGroupInfo status message)
  /\ forall c, result.2 = inr c ->
       root c = client
       /\ namespaces_of c
          = if info_namespaced info && negb (JS.strict_eq namespace (Some "all"))
            then [if negb (JS.truthy namespace) then defaultNamespace
                  else JS.to_string namespace]
            else [].
Proof.
  set (ns := if negb (JS.truthy namespace) then defaultNamespace
             else JS.to_string namespace).
  assert (forall c key err status message,
             member library c key = inl err -> err <> NoGroupInfo status message)
    as Hmember.
  { intros c key err status message. unfold member.
    destruct (value library c); [by intros [= <-] | ..];
      destruct (value library (Member c key)); by intros [= <-]. }
  assert (forall c arg err status message,
             call library c arg = inl err -> err <> NoGroupInfo status message)
    as Hcall.
  { intros c arg err status message. unfold call.
    destruct (value library c); try by intros [= <-].
    destruct (value library (Call c arg)); by intros [= <-]. }
  assert (forall c n err status message,
             namespaces library c n = inl err -> err <> NoGroupInfo status message)
    as Hnamespaces.
  { intros c n err status message. unfold namespaces.
    destruct (member library c "namespaces") as [e|method] eqn:Hm.
    { intros [= <-]. by eapply Hmember. }
    destruct (value library method); try by intros [= <-].
    destruct (value library (Namespaces c n)); by intros [= <-]. }
  cbv zeta.
  destruct (info_namespaced info && negb (JS.strict_eq namespace (Some "all"))).
  - destruct (namespaces library (Root client) ns) as [err|c1] eqn:H1.
    { cbn [fst snd]. split; [done |]. split; [| done].
      intros err' [= <-] status message. by eapply Hnamespaces. }
    apply namespaces_inv in H1 as ->.
    destruct (member library _ resourceType) as [err|c2] eqn:H2.
    { cbn [fst snd]. split; [done |]. split; [| done].
      intros err' [= <-] status message. by eapply Hmember. }
    apply member_inv in H2 as ->.
    destruct (JS.truthy resourceName); cbn [fst snd].
    + destruct (call library _ _) as [err|c3] eqn:H3.
      { split; [done |]. split; [| done].
        intros err' [= <-] status message. by eapply Hcall. }
      apply call_inv in H3 as ->. split; [done |]. split; [done |].
      by intros c [= <-].
    + split; [done |]. split; [done |]. by intros c [= <-].
  - destruct (member library _ resourceType) as [err|c2] eqn:H2.
    { cbn [fst snd]. split; [done |]. split; [| done].
      intros err' [= <-] status message. by eapply Hmember. }
    apply member_inv in H2 as ->.
    destruct (JS.truthy resourceName); cbn [fst snd].
    + destruct (call library _ _) as [err|c3] eqn:H3.
      { split; [done |]. split; [| done].
        intros err' [= <-] status message. by eapply Hcall. }
      apply call_inv in H3 as ->. split; [done |]. split; [done |].
      by intros c [= <-].
    + split; [done |]. split; [done |]. by intros c [= <-].
Qed.

Lemma getKubernetesClient_resolved loadSpec apiVersion client :
  getKubernetesClient loadSpec apiVersion = inr client ->
  getKubernetesClient None apiVersion = inr client.
Proof. by destruct loadSpec. Qed.

(** The client that the result of a lookup selects. *)
Lemma selected_client apiMaps clusterVer resourceType info :
  cache_ok apiMaps ->
  getGroupInfo apiMaps clusterVer resourceType = Some info ->
  exists client,
    getKubernetesClient None (info_version info) = inr client
    /\ (client = WholeClient \/ versioned client).
Proof.
  intros Hok Hinfo. destruct info as [e|m| |k];
    [| by exists WholeClient; split; [| left] ..].
  apply getGroupInfo_entry in Hinfo as [k Hk].
  destruct (parses_version _ (Hok _ _ _ Hk)) as (t & Ht & Hver).
  destruct (exec extractVerRegex (version e)) as [caps|] eqn:Hexec; [| done].
  destruct (exec_extractVerRegex_inv _ _ Hexec) as (v & Hv2 & Hgv).
  cbn in Hver. rewrite Hv2 in Hver. injection Hver as ->.
  cbn [info_version].
  destruct (client_of_group_version _ _ Hgv) as [[_ ->] | (g & Hg & _ & ->)].
  - exists (Api (render t)). split; [done |]. right. exists t. split; [done |]. by left.
  - exists (Apis g (render t)). split; [done |]. right. exists t. split; [done |].
    right. by exists g.
Qed.

(** X19: on a cache whose stored group-versions all parse, whatever a
    lookup returns selects the whole client, [client.api[v]] or
    [client.apis[g][v]] in [getKubernetesClient], with [v] a version
    token, and never its [null]; [buildChain] leaves such a cache, and a
    chain it resolves with starts from such a client. *)
Theorem buildChain_client net library defaultNamespace kubeconfig namespace
    resourceType resourceName apiMaps :
  cache_ok apiMaps ->
  (forall clusterVer resourceType' info,
      getGroupInfo apiMaps clusterVer resourceType' = Some info ->
      exists client,
        getKubernetesClient None (info_version info) = inr client
        /\ (client = WholeClient \/ versioned client))
  /\ let result := buildChain net library defaultNamespace kubeconfig namespace
                              resourceType resourceName apiMaps in
     cache_ok result.1
     /\ forall c, result.2 = inr c -> root c = WholeClient \/ versioned (root c).
Proof.
  intros Hok. split; [intros cv rt' info; by apply selected_client |].
  cbv zeta. unfold buildChain.
  destruct (Client.getVersion net kubeconfig) as [gitVersion|err] eqn:Hv; [| done].
  set (rt := JS.toLowerCase resourceType).
  set (cv := Utils.prettifyVersion gitVersion 2).
  fold (discovered net kubeconfig cv rt apiMaps).
  pose proof (discovered_cache_ok net kubeconfig cv rt apiMaps Hok) as Hok'.
  destruct (discovered net kubeconfig cv rt apiMaps) as [a [reason|]];
    cbn [fst snd] in *; [done |].
  destruct (getGroupInfo a cv rt) as [info|] eqn:Hinfo; [| done].
  destruct (selected_client a cv rt info Hok' Hinfo) as (client0 & Hsel & Hclient).
  destruct (getKubernetesClient (loadSpec library) (info_version info))
    as [err|client] eqn:Hc; [done |].
  apply getKubernetesClient_resolved in Hc. rewrite Hsel in Hc. injection Hc as <-.
  destruct (chain_shape library defaultNamespace namespace rt resourceName info
              client0 a) as (Hfst & _ & Hshape).
  cbv zeta in Hfst, Hshape.
  destruct (value library (Root client0)); try done;
    (split; [by rewrite Hfst | intros c Hc; by destruct (Hshape c Hc) as [-> _]]).
Qed.

Lemma buildChain_client_witness :
  (exists client,
      getKubernetesClient None
        (info_version (Entry {| version := "apps/v1beta1"; namespaced := true |}))
      = inr client
      /\ (client = WholeClient \/ versioned client))
  /\ let result := buildChain healthy_cluster demo_library "default"
                              (Some demo_kubeconfig) None "Deployment" None
                              scenario_cache in
     cache_ok result.1
     /\ forall c, result.2 = inr c -> root c = WholeClient \/ versioned (root c).
Proof.
  destruct (buildChain_client healthy_cluster demo_library "default"
              (Some demo_kubeconfig) None "Deployment" None scenario_cache)
    as [Hselect Hchain].
  { do 3 (apply fold_cache_ok). apply cache_ok_empty. }
  split; [| exact Hchain].
  apply (Hselect "1.8" "deployment"). reflexivity.
Defined.



(** X21: a known cluster version triggers no discovery, even for a
    resource that is not in its map: the cache is left as it is, and two
    clusters that answer the version request alike give the same result
    with the same client of the library, whatever they answer to the
    discovery requests. *)
Theorem buildChain_known_cluster net net' library defaultNamespace kubeconfig
    namespace resourceType resourceName apiMaps gitVersion :
  Client.getVersion net kubeconfig = Return gitVersion ->
  is_Some (apiMaps !! Utils.prettifyVersion gitVersion 2) ->
  Utils.prettifyVersion gitVersion 2 <> "" -> resourceType <> "" ->
  get_version net' = get_version net ->
  buildChain net' library defaultNamespace kubeconfig namespace resourceType
             resourceName apiMaps
  = buildChain net library defaultNamespace kubeconfig namespace resourceType
               resourceName apiMaps
  /\ (buildChain net library defaultNamespace kubeconfig namespace resourceType
                 resourceName apiMaps).1 = apiMaps.
Proof.
  intros Hv Hknown Hcv Hrt Hnet.
  assert (Client.getVersion net' kubeconfig = Return gitVersion) as Hv'.
  { rewrite <- Hv. destruct kubeconfig as [kc|]; [| done].
    cbn [Client.getVersion]. unfold APIMap.getVersion. by rewrite Hnet. }
  assert (JS.toLowerCase resourceType <> "") as Hrt' by by destruct resourceType.
  destruct (getGroupInfo_known apiMaps _ _ Hknown Hcv Hrt') as [info Hinfo].
  unfold buildChain. rewrite Hv, Hv', Hinfo. cbv zeta. rewrite Hinfo.
  split; [done |].
  destruct (getKubernetesClient (loadSpec library) (info_version info))
    as [err|client]; [done |].
  destruct (chain_shape library defaultNamespace namespace
              (JS.toLowerCase resourceType) resourceName info client apiMaps)
    as (Hfst & _).
  cbv zeta in Hfst. by destruct (value library (Root client)).
Qed.

Lemma buildChain_known_cluster_witness :
  buildChain demo_cluster demo_library "default" (Some demo_kubeconfig) None
             "widget" (Some "w1") core_cache
  = buildChain healthy_cluster demo_library "default" (Some demo_kubeconfig) None
               "widget" (Some "w1") core_cache
  /\ (buildChain healthy_cluster demo_library "default" (Some demo_kubeconfig) None
                 "widget" (Some "w1") core_cache).1 = core_cache.
Proof.
  apply (buildChain_known_cluster healthy_cluster demo_cluster demo_library "default"
           (Some demo_kubeconfig) None "widget" (Some "w1") core_cache "v1.8.3");
    [reflexivity | vm_compute; by eexists | by vm_compute | done | reflexivity].
Defined.

Lemma defaultNamespace_nonempty calls : defaultNamespace_after calls <> "".
Proof.
  unfold defaultNamespace_after.
  apply (foldl_keep _ (fun d => d <> "")); [| done].
  intros d [n|] Hd; unfold changeDefaultNamespace; [| done].
  destruct (JS.truthy (Some n)) eqn:Hn; [| done]. by apply truthy_nonempty.
Qed.

(** X22: whatever was passed to [changeDefaultNamespace], the chain
    names at most one namespace, never the empty one, the given one when
    it is not empty, and none for ['all']. *)
Theorem buildChain_namespace net library calls kubeconfig namespace resourceType
    resourceName apiMaps apiMaps' c :
  buildChain net library (defaultNamespace_after calls) kubeconfig namespace
             resourceType resourceName apiMaps
  = (apiMaps', inr c) ->
  (namespaces_of c = []
   \/ exists ns, namespaces_of c = [ns] /\ ns <> ""
                 /\ (JS.truthy namespace = true -> namespace = Some ns))
  /\ (namespace = Some "all" -> namespaces_of c = []).
Proof.
  unfold buildChain.
  destruct (Client.getVersion net kubeconfig) as [gitVersion|err]; [| done].
  set (rt := JS.toLowerCase resourceType).
  set (cv := Utils.prettifyVersion gitVersion 2).
  fold (discovered net kubeconfig cv rt apiMaps).
  destruct (discovered net kubeconfig cv rt apiMaps) as [a [reason|]]; [done |].
  destruct (getGroupInfo a cv rt) as [info|]; [| done].
  destruct (getKubernetesClient (loadSpec library) (info_version info))
    as [f|client]; [done |].
  destruct (chain_shape library (defaultNamespace_after calls) namespace rt
              resourceName info client a) as (_ & _ & Hshape).
  cbv zeta in Hshape.
  assert (forall c0,
    namespaces_of c0
    = (if info_namespaced info && negb (JS.strict_eq namespace (Some "all"))
       then [if negb (JS.truthy namespace) then defaultNamespace_after calls
             else JS.to_string namespace]
       else []) ->
    (namespaces_of c0 = []
     \/ exists ns, namespaces_of c0 = [ns] /\ ns <> ""
                   /\ (JS.truthy namespace = true -> namespace = Some ns))
    /\ (namespace = Some "all" -> namespaces_of c0 = [])) as Hcases.
  { intros c0 ->.
    destruct (info_namespaced info); cbn [andb].
    2: { split; [by left | done]. }
    destruct namespace as [ns|]; cbn [JS.strict_eq JS.truthy negb JS.to_string].
    2: { split; [| done]. right. exists (defaultNamespace_after calls).
         split; [done |]. split; [apply defaultNamespace_nonempty | done]. }
    destruct (String.eqb_spec ns "all") as [->|Hall]; cbn [negb].
    { split; [by left | done]. }
    split; [| by intros [= ->]].
    right. destruct (String.eqb_spec ns "") as [->|Hne]; cbn [negb].
    - exists (defaultNamespace_after calls).
      split; [done |]. split; [apply defaultNamespace_nonempty | done].
    - by exists ns. }
  destruct (value library (Root client)); try done;
    intros H; apply (f_equal snd) in H; cbn [snd] in H;
    apply Hcases; by apply Hshape.
Qed.

Lemma buildChain_namespace_witness :
  exists c,
    (buildChain healthy_cluster demo_library
                (defaultNamespace_after [Some "staging"; None; Some ""])
                (Some demo_kubeconfig) None "pods" None core_cache).2 = inr c
    /\ (namespaces_of c = []
        \/ exists ns, namespaces_of c = [ns] /\ ns <> ""
                      /\ (JS.truthy None = true -> None = Some ns))
    /\ (None = Some "all" -> namespaces_of c = []).
Proof.
  destruct (buildChain healthy_cluster demo_library
              (defaultNamespace_after [Some "staging"; None; Some ""])
              (Some demo_kubeconfig) None "pods" None core_cache)
    as [apiMaps' [f | c]] eqn:Hchain; [by vm_compute in Hchain |].
  exists c. split; [done |].
  exact (buildChain_namespace healthy_cluster demo_library
           [Some "staging"; None; Some ""]
           (Some demo_kubeconfig) None "pods" None core_cache apiMaps' c Hchain).
Defined.

(** X23: the version request goes to the same URL whether or not the
    server address ends with a slash. *)
Theorem getVersion_trailing_slash net base :
  JS.last_char base <> Some "/"%char ->
  APIMap.getVersion net {| server := base ++ "/" |}
  = APIMap.getVersion net {| server := base |}.
Proof.
  intros Hlast. unfold APIMap.getVersion. cbn [server].
  assert (JS.last_char (base ++ "/") = Some "/"%char) as ->.
  { clear Hlast. unfold JS.last_char. rewrite string_length_app, Nat.add_comm.
    cbn [String.length Nat.add].
    induction base as [|a base IH]; [done |].
    rewrite string_app_cons. cbn [String.length]. 
    destruct (String.length base) eqn:Hlen; cbn [String.get] in *; exact IH. }
  destruct (JS.last_char base) as [c|] eqn:Hc.
  - destruct (Ascii.eqb_spec c "/") as [->|Hne]; [done |].
    replace (if c is "/"%char then "" else "/") with "/"
      by by destruct c as [[] [] [] [] [] [] [] []].
    by rewrite string_app_assoc.
  - by rewrite string_app_assoc.
Qed.

Lemma getVersion_trailing_slash_witness :
  APIMap.getVersion healthy_cluster {| server := "https://k8s.example:6443/" |}
  = APIMap.getVersion healthy_cluster {| server := "https://k8s.example:6443" |}.
Proof.
  apply (getVersion_trailing_slash healthy_cluster "https://k8s.example:6443").
  by vm_compute.
Defined.

End ChainFacts.
